(** * Index fund replication calculator: capped market-cap weights and share counts

    A shallow embedding of [main.py]: [calculate_weights_with_cap],
    [calculate_shares] and [replicate_index_fund], and the properties of the
    allocation pipeline proved about them.

    Modelling conventions.
    - Python [float] values are idealised as exact rationals ([Q]); the
      tolerances of the properties are therefore zero and equality of numbers
      is [Qeq] ([==]).
    - A Python [dict] is an association list in insertion order with unique
      keys: assigning to a key that is present replaces the value in place,
      assigning to a new key appends it.
    - [raise] is the [Raise] constructor of the [result] type; the statements
      of a function body are sequenced with the bind of that type. *)

From Stdlib Require Import QArith Qround Qminmax ZArith List String Bool Lia Lra Psatz.
From Stdlib Require Import Setoid Morphisms Permutation Sorted OrdersEx.
Import ListNotations.
Open Scope string_scope.
Open Scope list_scope.
Open Scope Q_scope.

(** ** Exceptions and results *)

(** The exceptions the functions can raise.  The four [ValueError]s are kept
    apart by constructor, each with the message it stands for. *)
Inductive error : Type :=
| TotalMarketCapZero                              (* ValueError("Total market cap is zero") *)
| InvestmentNotPositive                           (* ValueError("Investment amount must be positive") *)
| InvalidPrice (ticker : string) (price : Q)      (* ValueError(f"Invalid price for {ticker}: {price}") *)
| FundDataEmpty                                   (* ValueError("Fund data is empty") *)
| KeyError (key : string)
| ZeroDivisionError.

Definition is_ValueError (e : error) : bool :=
  match e with
  | TotalMarketCapZero | InvestmentNotPositive | InvalidPrice _ _ | FundDataEmpty => true
  | KeyError _ | ZeroDivisionError => false
  end.

Inductive result (A : Type) : Type :=
| Ok (a : A)
| Raise (e : error).
Arguments Ok {A} a.
Arguments Raise {A} e.

Definition bind {A B : Type} (c : result A) (k : A -> result B) : result B :=
  match c with
  | Ok a => k a
  | Raise e => Raise e
  end.

Notation "x <- c ;; k" := (bind c (fun x => k))
  (at level 61, c at next level, right associativity).
Notation "' p <- c ;; k" := (bind c (fun x => let 'p := x in k))
  (at level 61, p pattern, c at next level, right associativity).

Definition is_ok {A : Type} (r : result A) : bool :=
  match r with Ok _ => true | Raise _ => false end.

(** A [for] loop whose body can raise: the state is threaded from left to
    right and the first exception stops the loop. *)
Fixpoint for_each {S X : Type} (body : S -> X -> result S) (xs : list X) (s : S)
  : result S :=
  match xs with
  | [] => Ok s
  | x :: rest => s' <- body s x ;; for_each body rest s'
  end.

(** ** Numbers *)

(** [a < b] as a boolean. *)
Definition Qltb (a b : Q) : bool := negb (Qle_bool b a).

(** [int(x)]: truncation toward zero. *)
Definition int (x : Q) : Z := Z.quot (Qnum x) (Zpos (Qden x)).

(** [a / b] on floats raises [ZeroDivisionError] when [b] is zero. *)
Definition truediv (a b : Q) : result Q :=
  if Qeq_bool b 0 then Raise ZeroDivisionError else Ok (a / b).

(** [sum(xs)]: starts from 0 and adds from left to right. *)
Definition py_sum (xs : list Q) : Q := fold_left Qplus xs 0.

(** ** Dictionaries *)

Definition dict (V : Type) : Type := list (string * V).

Definition keys {V : Type} (d : dict V) : list string := map fst d.
Definition values {V : Type} (d : dict V) : list V := map snd d.

Fixpoint get {V : Type} (d : dict V) (k : string) : option V :=
  match d with
  | [] => None
  | (k', v) :: d' => if String.eqb k' k then Some v else get d' k
  end.

(** [d[k]] *)
Definition getitem {V : Type} (d : dict V) (k : string) : result V :=
  match get d k with
  | Some v => Ok v
  | None => Raise (KeyError k)
  end.

(** [d[k] = v] *)
Fixpoint setitem {V : Type} (d : dict V) (k : string) (v : V) : dict V :=
  match d with
  | [] => [(k, v)]
  | (k', v') :: d' =>
      if String.eqb k' k then (k', v) :: d' else (k', v') :: setitem d' k v
  end.

(** [{key(e): value(e) for e in xs}], added to [d0]: the entries are assigned
    from left to right, so a later entry with the same key overwrites the
    value of an earlier one and keeps its position. *)
Definition comprehension {E V : Type} (key : E -> string) (value : E -> V)
  (xs : list E) (d0 : dict V) : dict V :=
  fold_left (fun d e => setitem d (key e) (value e)) xs d0.

(** ** The data model *)

(** One record of the fund file: [{"ticker": ..., "market_cap": ..., "price": ...}]. *)
Record Equity : Type := mkEquity {
  ticker : string;
  market_cap : Q;
  price : Q
}.

(** ** calculate_weights_with_cap *)

(** [sum(equity["market_cap"] for equity in equities)] *)
Definition total_market_cap (equities : list Equity) : Q :=
  py_sum (map market_cap equities).

(** [{equity["ticker"]: equity["market_cap"] / total_market_cap for equity in equities}];
    the caller has checked that the total is not zero. *)
Definition initial_weights (equities : list Equity) (total : Q) : dict Q :=
  comprehension ticker (fun e => market_cap e / total) equities [].

(** Body of the first loop: the state is [(capped_weights, excess_weight)]. *)
Definition cap_step (cap_percentage : Q) (st : dict Q * Q) (item : string * Q)
  : dict Q * Q :=
  let '(capped_weights, excess_weight) := st in
  let '(tk, weight) := item in
  if Qltb cap_percentage weight
  then (setitem capped_weights tk cap_percentage,
        excess_weight + (weight - cap_percentage))
  else (setitem capped_weights tk weight, excess_weight).

(** The first loop, from [capped_weights = {}] and [excess_weight = 0.0]. *)
Definition apply_cap (initial : dict Q) (cap_percentage : Q) : dict Q * Q :=
  fold_left (cap_step cap_percentage) initial ([], 0).

(** [[ticker for ticker, weight in items if initial_weights[ticker] <= cap_percentage]] *)
Fixpoint non_capped_from (initial : dict Q) (cap_percentage : Q)
  (items : list (string * Q)) : result (list string) :=
  match items with
  | [] => Ok []
  | (tk, _) :: rest =>
      w <- getitem initial tk ;;
      tl <- non_capped_from initial cap_percentage rest ;;
      Ok (if Qle_bool w cap_percentage then tk :: tl else tl)
  end.

Definition non_capped_equities (initial : dict Q) (cap_percentage : Q)
  : result (list string) :=
  non_capped_from initial cap_percentage initial.

(** [sum(initial_weights[ticker] for ticker in non_capped_equities)] *)
Definition non_capped_total (initial : dict Q) (non_capped : list string)
  : result Q :=
  for_each (fun acc tk => w <- getitem initial tk ;; Ok (acc + w)) non_capped 0.

(** Body of the redistribution loop; the state is [capped_weights]. *)
Definition redistribute_step (initial : dict Q)
  (cap_percentage excess_weight total_non_capped : Q)
  (capped_weights : dict Q) (tk : string) : result (dict Q) :=
  w <- getitem initial tk ;;
  let redistribution_factor := w / total_non_capped in
  cur <- getitem capped_weights tk ;;
  let capped_weights := setitem capped_weights tk
                          (cur + excess_weight * redistribution_factor) in
  cur <- getitem capped_weights tk ;;
  Ok (setitem capped_weights tk (Qmin cur cap_percentage)).

Definition calculate_weights_with_cap (equities : list Equity) (cap_percentage : Q)
  : result (dict Q) :=
  let total := total_market_cap equities in
  if Qeq_bool total 0 then Raise TotalMarketCapZero else
  let initial := initial_weights equities total in
  let '(capped_weights, excess_weight) := apply_cap initial cap_percentage in
  if Qltb 0 excess_weight then
    non_capped <- non_capped_equities initial cap_percentage ;;
    match non_capped with
    | [] => Ok capped_weights
    | _ :: _ =>
        total_non_capped <- non_capped_total initial non_capped ;;
        if Qltb 0 total_non_capped then
          for_each (redistribute_step initial cap_percentage excess_weight
                      total_non_capped) non_capped capped_weights
        else Ok capped_weights
    end
  else Ok capped_weights.

(** ** calculate_shares *)

(** [{equity["ticker"]: equity for equity in equities}] *)
Definition equity_dict (equities : list Equity) : dict Equity :=
  comprehension ticker (fun e => e) equities [].

(** Body of the share loop; the state is
    [(shares_per_ticker, total_cost_excl_fees)]. *)
Definition shares_step (by_ticker : dict Equity)
  (investment_amount transaction_cost_rate : Q)
  (st : dict Z * Q) (item : string * Q) : result (dict Z * Q) :=
  let '(shares_per_ticker, total_cost_excl_fees) := st in
  let '(tk, weight) := item in
  equity <- getitem by_ticker tk ;;
  let p := price equity in
  if Qle_bool p 0 then Raise (InvalidPrice tk p) else
  let allocation := investment_amount * weight in
  q <- truediv allocation (p * (1 + transaction_cost_rate)) ;;
  let shares := int q in
  let cost_excl_fees := inject_Z shares * p in
  Ok (setitem shares_per_ticker tk shares, total_cost_excl_fees + cost_excl_fees).

(** Returns [(shares_per_ticker, total_cost_incl_fees, total_cost_excl_fees)]. *)
Definition calculate_shares (equities : list Equity)
  (investment_amount transaction_cost_rate cap_percentage : Q)
  : result (dict Z * Q * Q) :=
  if Qle_bool investment_amount 0 then Raise InvestmentNotPositive else
  let by_ticker := equity_dict equities in
  weights <- calculate_weights_with_cap equities cap_percentage ;;
  '(shares_per_ticker, total_cost_excl_fees) <-
    for_each (shares_step by_ticker investment_amount transaction_cost_rate)
             weights ([], 0) ;;
  let total_transaction_fees := total_cost_excl_fees * transaction_cost_rate in
  let total_cost_incl_fees := total_cost_excl_fees + total_transaction_fees in
  Ok (shares_per_ticker, total_cost_incl_fees, total_cost_excl_fees).

(** ** replicate_index_fund *)

(** [equities] is what [load_fund_data(fund_file)] returned. *)
Definition replicate_index_fund (equities : list Equity)
  (investment_amount transaction_cost_rate cap_percentage : Q)
  : result (dict Z * Q * Q) :=
  match equities with
  | [] => Raise FundDataEmpty
  | _ :: _ =>
      calculate_shares equities investment_amount transaction_cost_rate
        cap_percentage
  end.

(** ** main *)

(** [sorted(shares.items())]: the items are tuples [(ticker, num_shares)],
    compared by ticker first (strings compare character by character, here
    byte by byte) and by share count for equal tickers.  The sort is stable;
    it is written as an insertion sort. *)
Definition item_leb (a b : string * Z) : bool :=
  match String_as_OT.compare (fst a) (fst b) with
  | Lt => true
  | Eq => (snd a <=? snd b)%Z
  | Gt => false
  end.

Fixpoint insert_item (x : string * Z) (l : list (string * Z)) : list (string * Z) :=
  match l with
  | [] => [x]
  | y :: l' => if item_leb x y then x :: y :: l' else y :: insert_item x l'
  end.

Definition sorted (l : list (string * Z)) : list (string * Z) :=
  fold_right insert_item [] l.




(** The items the display loop prints: [sorted(shares.items())] without the
    tickers whose share count is not positive. *)
Definition listed_holdings (shares : dict Z) : list (string * Z) :=
  filter (fun it => (0 <? snd it)%Z) (sorted shares).



(** Strictly ascending tickers. *)
Definition ticker_lt (a b : string * Z) : Prop :=
  String_as_OT.lt (fst a) (fst b).

(** ** Scenario 2 of the testable properties *)

Definition scenario2 : list Equity := [mkEquity "X" 100 20].

(** ** Closed forms of the loops

    What each loop computes when the keys of [initial_weights] are distinct
    (they always are: it is a dictionary).  The loops above are proved equal
    to these below. *)

(** Weight of a ticker after the first loop. *)
Definition capped_weight (cap_percentage w : Q) : Q :=
  if Qltb cap_percentage w then cap_percentage else w.

(** What a ticker adds to [excess_weight] in the first loop. *)
Definition excess_part (cap_percentage w : Q) : Q :=
  if Qltb cap_percentage w then w - cap_percentage else 0.

(** The condition of the list comprehension for [non_capped_equities]. *)
Definition is_under (cap_percentage : Q) (item : string * Q) : bool :=
  Qle_bool (snd item) cap_percentage.

(** Weight of a ticker after the redistribution loop has run. *)
Definition final_weight (cap_percentage excess_weight total_non_capped w : Q) : Q :=
  if Qle_bool w cap_percentage
  then Qmin (w + excess_weight * (w / total_non_capped)) cap_percentage
  else cap_percentage.

Definition map_values {V W : Type} (f : V -> W) (d : dict V) : dict W :=
  map (fun kv => (fst kv, f (snd kv))) d.

(** ** Local variables of [calculate_weights_with_cap] as functions of its arguments *)

(** [initial_weights] *)
Definition initial_of (equities : list Equity) : dict Q :=
  initial_weights equities (total_market_cap equities).

(** [excess_weight] after the first loop *)
Definition excess_of (equities : list Equity) (cap_percentage : Q) : Q :=
  snd (apply_cap (initial_of equities) cap_percentage).

(** Total initial weight of the tickers at or below the cap. *)
Definition under_total (initial : dict Q) (cap_percentage : Q) : Q :=
  py_sum (values (filter (is_under cap_percentage) initial)).

(** The clamp at the end of the redistribution loop never reduces a weight:
    every non-capped ticker's weight after the [+=] is at most the cap. *)
Definition clamp_never_reduces (equities : list Equity) (cap_percentage : Q) : Prop :=
  forall non_capped total_non_capped tk w,
    non_capped_equities (initial_of equities) cap_percentage = Ok non_capped ->
    non_capped_total (initial_of equities) non_capped = Ok total_non_capped ->
    In tk non_capped ->
    get (initial_of equities) tk = Some w ->
    w + excess_of equities cap_percentage * (w / total_non_capped) <= cap_percentage.

(** When weight was taken from capped tickers, there are non-capped tickers
    of positive total initial weight to receive it. *)
Definition excess_has_receivers (equities : list Equity) (cap_percentage : Q) : Prop :=
  0 < excess_of equities cap_percentage ->
  exists non_capped total_non_capped,
    non_capped_equities (initial_of equities) cap_percentage = Ok non_capped
    /\ non_capped_total (initial_of equities) non_capped = Ok total_non_capped
    /\ 0 < total_non_capped.

(** Weight that [calculate_weights_with_cap] returns for one ticker. *)
Definition weight_of (equities : list Equity) (cap_percentage : Q) (tk : string)
  : option Q :=
  match calculate_weights_with_cap equities cap_percentage with
  | Ok weights => get weights tk
  | Raise _ => None
  end.

(** The three-equity fund used in the examples: initial weights 1/8, 3/8, 1/2. *)
Definition fund_abc : list Equity :=
  [mkEquity "A" 1 10; mkEquity "B" 3 10; mkEquity "C" 4 10].

(** ** The share loop in closed form *)

(** Number of shares bought for a ticker of weight [w] and price [p]. *)
Definition share_count (investment_amount transaction_cost_rate w p : Q) : Z :=
  int (investment_amount * w / (p * (1 + transaction_cost_rate))).

(** Entry of [shares_per_ticker] for one item of the weight map. *)
Definition shares_for (by_ticker : dict Equity)
  (investment_amount transaction_cost_rate : Q) (item : string * Q) : Z :=
  match get by_ticker (fst item) with
  | Some e => share_count investment_amount transaction_cost_rate (snd item) (price e)
  | None => 0%Z
  end.

(** [cost_excl_fees] of one item of the weight map. *)
Definition cost_for (by_ticker : dict Equity)
  (investment_amount transaction_cost_rate : Q) (item : string * Q) : Q :=
  match get by_ticker (fst item) with
  | Some e =>
      inject_Z (share_count investment_amount transaction_cost_rate (snd item) (price e))
      * price e
  | None => 0
  end.

(** [shares_per_ticker] after the share loop has run over [items]. *)
Definition shares_map (by_ticker : dict Equity) (investment rate : Q)
  (items : dict Q) : dict Z :=
  map (fun it => (fst it, shares_for by_ticker investment rate it)) items.

(** ** Same inputs, same outputs

    Numbers are compared by value ([==]), tickers and share counts by
    identity. *)



(** Same keys in the same order, values related by [R]. *)
Definition same_dict {V : Type} (R : V -> V -> Prop) : dict V -> dict V -> Prop :=
  Forall2 (fun a b => fst a = fst b /\ R (snd a) (snd b)).




(** ** Inputs derived from other inputs *)


(** Cost without fees of one entry of a share map: the share count times the
    price of the ticker's record. *)
Definition position_cost (by_ticker : dict Equity) (holding : string * Z) : Q :=
  match get by_ticker (fst holding) with
  | Some e => inject_Z (snd holding) * price e
  | None => 0
  end.


(** * Facts about dictionaries *)

Section DictFacts.
Context {V : Type}.
Implicit Types (d : dict V) (k : string) (v : V).

Lemma get_None_iff d k : get d k = None <-> ~ In k (keys d).
Proof.
  induction d as [|[k' v'] d IH]; simpl.
  - tauto.
  - destruct (String.eqb_spec k' k) as [->|Hne].
    + split; [discriminate | intros H; exfalso; apply H; now left].
    + rewrite IH. split; [intros H [E|E]; tauto | tauto].
Qed.

Lemma get_Some_In d k v : get d k = Some v -> In (k, v) d.
Proof.
  induction d as [|[k' v'] d IH]; simpl; [discriminate|].
  destruct (String.eqb_spec k' k) as [->|Hne].
  - intros [= ->]. now left.
  - intros H. right. now apply IH.
Qed.

Lemma In_keys d k v : In (k, v) d -> In k (keys d).
Proof. intros H. apply (in_map fst) in H. exact H. Qed.

Lemma In_values d k v : In (k, v) d -> In v (values d).
Proof. intros H. apply (in_map snd) in H. exact H. Qed.

Lemma In_get d k v : NoDup (keys d) -> In (k, v) d -> get d k = Some v.
Proof.
  induction d as [|[k' v'] d IH]; simpl; [tauto|].
  intros Hnd [E|Hin].
  - injection E as -> ->. now rewrite String.eqb_refl.
  - inversion Hnd as [|? ? Hnotin Hnd']; subst.
    destruct (String.eqb_spec k' k) as [->|Hne].
    + exfalso. apply Hnotin. eapply In_keys; eauto.
    + auto.
Qed.

Lemma get_Some_keys d k v : get d k = Some v -> In k (keys d).
Proof. intros H. eapply In_keys, get_Some_In; eauto. Qed.

Lemma In_keys_get d k : In k (keys d) -> exists v, get d k = Some v.
Proof.
  intros H. destruct (get d k) as [v|] eqn:E; [eauto|].
  apply get_None_iff in E. contradiction.
Qed.

Lemma setitem_fresh d k v : ~ In k (keys d) -> setitem d k v = d ++ [(k, v)].
Proof.
  induction d as [|[k' v'] d IH]; simpl; [reflexivity|].
  intros H. destruct (String.eqb_spec k' k) as [->|Hne].
  - exfalso. apply H. now left.
  - f_equal. apply IH. tauto.
Qed.

Lemma get_setitem d k v k' :
  get (setitem d k v) k' = if String.eqb k k' then Some v else get d k'.
Proof.
  induction d as [|[k0 v0] d IH]; simpl.
  - reflexivity.
  - destruct (String.eqb_spec k0 k) as [->|Hne]; simpl.
    + destruct (String.eqb_spec k k'); reflexivity.
    + rewrite IH. destruct (String.eqb_spec k0 k') as [->|Hne'].
      * destruct (String.eqb_spec k k'); [congruence | reflexivity].
      * reflexivity.
Qed.

Lemma get_setitem_same d k v : get (setitem d k v) k = Some v.
Proof. rewrite get_setitem. now rewrite String.eqb_refl. Qed.

Lemma get_setitem_other d k v k' : k <> k' -> get (setitem d k v) k' = get d k'.
Proof.
  intros H. rewrite get_setitem.
  destruct (String.eqb_spec k k'); [contradiction | reflexivity].
Qed.

Lemma keys_setitem_present d k v : In k (keys d) -> keys (setitem d k v) = keys d.
Proof.
  induction d as [|[k' v'] d IH]; simpl; [tauto|].
  intros H. destruct (String.eqb_spec k' k) as [->|Hne]; simpl.
  - reflexivity.
  - f_equal. apply IH. destruct H; [contradiction | assumption].
Qed.

Lemma keys_setitem_fresh d k v : ~ In k (keys d) -> keys (setitem d k v) = keys d ++ [k].
Proof.
  intros H. rewrite setitem_fresh by assumption.
  unfold keys. now rewrite map_app.
Qed.

Lemma In_keys_setitem d k v k' :
  In k' (keys (setitem d k v)) <-> k' = k \/ In k' (keys d).
Proof.
  destruct (in_dec string_dec k (keys d)) as [Hin|Hnin].
  - rewrite keys_setitem_present by assumption.
    split; [tauto | intros [->|H]; assumption].
  - rewrite keys_setitem_fresh by assumption.
    rewrite in_app_iff. simpl. split; intros H; intuition congruence.
Qed.

Lemma NoDup_keys_setitem d k v : NoDup (keys d) -> NoDup (keys (setitem d k v)).
Proof.
  intros Hnd. destruct (in_dec string_dec k (keys d)) as [Hin|Hnin].
  - now rewrite keys_setitem_present.
  - rewrite keys_setitem_fresh by assumption.
    apply NoDup_app; [assumption | repeat constructor; simpl; tauto |].
    intros x Hx [<-|[]]. contradiction.
Qed.

Lemma setitem_setitem d k v v' : setitem (setitem d k v) k v' = setitem d k v'.
Proof.
  induction d as [|[k0 v0] d IH]; simpl.
  - now rewrite String.eqb_refl.
  - destruct (String.eqb_spec k0 k) as [->|Hne]; simpl.
    + now rewrite String.eqb_refl.
    + destruct (String.eqb_spec k0 k); [contradiction|]. now rewrite IH.
Qed.

Lemma In_values_setitem d k v x :
  In x (values (setitem d k v)) -> x = v \/ In x (values d).
Proof.
  induction d as [|[k0 v0] d IH]; simpl.
  - intros [<-|[]]. now left.
  - destruct (String.eqb_spec k0 k) as [->|Hne]; simpl.
    + intros [<-|H]; auto.
    + intros [<-|H]; auto. destruct (IH H); auto.
Qed.

(** Two dictionaries with the same keys in the same order and the same
    value under every key are the same dictionary. *)
Lemma dict_ext d1 d2 :
  NoDup (keys d1) -> keys d1 = keys d2 ->
  (forall k, get d1 k = get d2 k) -> d1 = d2.
Proof.
  revert d2. induction d1 as [|[k1 v1] d1 IH]; intros [|[k2 v2] d2]; simpl;
    try discriminate; [reflexivity|].
  intros Hnd [= <- Hk] Hget.
  inversion Hnd as [|? ? Hnotin Hnd']; subst.
  assert (v1 = v2) as <-.
  { specialize (Hget k1). rewrite String.eqb_refl in Hget. congruence. }
  f_equal. apply IH; [assumption..|].
  intros k. specialize (Hget k).
  destruct (String.eqb_spec k1 k) as [E|Hne]; [subst k|assumption].
  assert (get d1 k1 = None) as -> by now apply get_None_iff.
  symmetry. apply get_None_iff. now rewrite <- Hk.
Qed.

Lemma get_map_values {W : Type} (f : string -> V -> W) d k :
  get (map (fun kv => (fst kv, f (fst kv) (snd kv))) d) k
  = option_map (f k) (get d k).
Proof.
  induction d as [|[k' v'] d IH]; simpl; [reflexivity|].
  destruct (String.eqb_spec k' k) as [E|Hne]; [now subst | assumption].
Qed.

End DictFacts.

Lemma keys_map_values' {V W : Type} (f : V -> W) (d : dict V) :
  keys (map_values f d) = keys d.
Proof. unfold keys, map_values. rewrite map_map. reflexivity. Qed.

Lemma values_map_values {V W : Type} (f : V -> W) (d : dict V) :
  values (map_values f d) = map f (values d).
Proof. unfold values, map_values. rewrite !map_map. reflexivity. Qed.

Lemma get_map_values' {V W : Type} (f : V -> W) (d : dict V) k :
  get (map_values f d) k = option_map f (get d k).
Proof. exact (get_map_values (fun _ => f) d k). Qed.

(** * Facts about dictionary comprehensions *)

Section Comprehension.
Context {E V : Type} (kf : E -> string) (vf : E -> V).


Lemma keys_comprehension l d0 k :
  In k (keys (comprehension kf vf l d0)) <-> In k (keys d0) \/ In k (map kf l).
Proof.
  revert d0. induction l as [|e l IH]; intros d0; simpl.
  - tauto.
  - unfold comprehension in *. simpl. rewrite IH, In_keys_setitem.
    split; intros H; intuition congruence.
Qed.

Lemma NoDup_keys_comprehension l d0 : NoDup (keys d0) -> NoDup (keys (comprehension kf vf l d0)).
Proof.
  revert d0. induction l as [|e l IH]; intros d0 H; simpl; [assumption|].
  apply IH. now apply NoDup_keys_setitem.
Qed.

Lemma In_values_comprehension l d0 x :
  In x (values (comprehension kf vf l d0)) -> In x (values d0) \/ exists e, In e l /\ x = vf e.
Proof.
  revert d0. induction l as [|e l IH]; intros d0; simpl; [tauto|].
  intros H. apply IH in H. destruct H as [H|(e' & He' & ->)].
  - apply In_values_setitem in H. destruct H as [->|H]; eauto.
  - eauto.
Qed.

Lemma get_comprehension l d0 k v :
  get (comprehension kf vf l d0) k = Some v ->
  get d0 k = Some v \/ exists e, In e l /\ kf e = k /\ v = vf e.
Proof.
  revert d0. induction l as [|e l IH]; intros d0; simpl; [tauto|].
  intros H. apply IH in H. destruct H as [H|(e' & He' & Hk & ->)].
  - rewrite get_setitem in H.
    destruct (String.eqb_spec (kf e) k) as [Hk|Hne]; [|tauto].
    injection H as <-. right. eauto.
  - right. eauto.
Qed.

(** With distinct keys the comprehension is a [map]. *)
Lemma comprehension_NoDup l d0 :
  NoDup (keys d0 ++ map kf l) ->
  comprehension kf vf l d0 = d0 ++ map (fun e => (kf e, vf e)) l.
Proof.
  revert d0. induction l as [|e l IH]; intros d0 Hnd; simpl.
  - now rewrite app_nil_r.
  - assert (Hfresh : ~ In (kf e) (keys d0)).
    { intros Hin. apply NoDup_remove_2 in Hnd. apply Hnd.
      apply in_or_app. now left. }
    unfold comprehension in *. simpl. rewrite IH.
    + rewrite setitem_fresh by assumption. now rewrite <- app_assoc.
    + rewrite keys_setitem_fresh by assumption.
      rewrite <- app_assoc. exact Hnd.
Qed.
End Comprehension.

(** * Facts about sums and comparisons *)

Lemma Qltb_lt a b : Qltb a b = true <-> a < b.
Proof.
  unfold Qltb. rewrite negb_true_iff.
  destruct (Qle_bool b a) eqn:E.
  - apply Qle_bool_iff in E. split; [discriminate | intros H; lra].
  - split; [intros _ | reflexivity].
    destruct (Qlt_le_dec a b) as [H|H]; [assumption|].
    apply Qle_bool_iff in H. congruence.
Qed.

Lemma Qltb_ge a b : Qltb a b = false <-> b <= a.
Proof.
  unfold Qltb. rewrite negb_false_iff. apply Qle_bool_iff.
Qed.

Lemma Qle_bool_gt a b : Qle_bool a b = false <-> b < a.
Proof.
  rewrite <- Qltb_lt. unfold Qltb. now rewrite negb_true_iff.
Qed.

Lemma fold_left_Qplus_acc l a : fold_left Qplus l a == a + py_sum l.
Proof.
  unfold py_sum. revert a. induction l as [|x l IH]; intros a; simpl.
  - ring.
  - rewrite IH, (IH (0 + x)). ring.
Qed.

Lemma py_sum_nil : py_sum [] = 0.
Proof. reflexivity. Qed.

Lemma py_sum_cons x l : py_sum (x :: l) == x + py_sum l.
Proof. unfold py_sum at 1. simpl. rewrite fold_left_Qplus_acc. ring. Qed.

Lemma py_sum_app l1 l2 : py_sum (l1 ++ l2) == py_sum l1 + py_sum l2.
Proof.
  induction l1 as [|x l1 IH]; simpl.
  - rewrite py_sum_nil. ring.
  - rewrite !py_sum_cons, IH. ring.
Qed.

Lemma py_sum_nonneg l : (forall x, In x l -> 0 <= x) -> 0 <= py_sum l.
Proof.
  induction l as [|x l IH]; intros H.
  - rewrite py_sum_nil. lra.
  - rewrite py_sum_cons.
    assert (0 <= x) by (apply H; now left).
    assert (0 <= py_sum l) by (apply IH; intros; apply H; now right). lra.
Qed.


Lemma py_sum_map_eq {A : Type} (f g : A -> Q) l :
  (forall x, In x l -> f x == g x) -> py_sum (map f l) == py_sum (map g l).
Proof.
  induction l as [|x l IH]; intros H; simpl.
  - reflexivity.
  - rewrite !py_sum_cons, IH by (intros; apply H; now right).
    rewrite (H x) by now left. reflexivity.
Qed.

Lemma py_sum_map_plus {A : Type} (f g : A -> Q) l :
  py_sum (map (fun x => f x + g x) l) == py_sum (map f l) + py_sum (map g l).
Proof.
  induction l as [|x l IH]; simpl.
  - rewrite py_sum_nil. ring.
  - rewrite !py_sum_cons, IH. ring.
Qed.

Lemma py_sum_map_scale {A : Type} (f : A -> Q) c l :
  py_sum (map (fun x => f x * c) l) == py_sum (map f l) * c.
Proof.
  induction l as [|x l IH]; simpl.
  - rewrite py_sum_nil. ring.
  - rewrite !py_sum_cons, IH. ring.
Qed.

(** * The loops of [calculate_weights_with_cap] in closed form *)

Lemma capped_weight_alt cap w :
  capped_weight cap w = if Qle_bool w cap then w else cap.
Proof. unfold capped_weight, Qltb. now destruct (Qle_bool w cap). Qed.

Lemma capped_plus_excess cap w : capped_weight cap w + excess_part cap w == w.
Proof. unfold capped_weight, excess_part. destruct (Qltb cap w); ring. Qed.

Lemma excess_part_nonneg cap w : 0 <= excess_part cap w.
Proof.
  unfold excess_part. destruct (Qltb cap w) eqn:E; [|lra].
  apply Qltb_lt in E. lra.
Qed.

Lemma cap_step_eq cap cw e k w :
  exists e', cap_step cap (cw, e) (k, w) = (setitem cw k (capped_weight cap w), e')
             /\ e' == e + excess_part cap w.
Proof.
  unfold cap_step, capped_weight, excess_part.
  destruct (Qltb cap w); eexists; (split; [reflexivity|]); ring.
Qed.

Lemma cap_loop cap l : forall cw0 e0,
  NoDup (keys cw0 ++ keys l) ->
  fst (fold_left (cap_step cap) l (cw0, e0)) = cw0 ++ map_values (capped_weight cap) l
  /\ snd (fold_left (cap_step cap) l (cw0, e0))
     == e0 + py_sum (map (excess_part cap) (values l)).
Proof.
  induction l as [|[k w] l IH]; intros cw0 e0 Hnd; cbn [fold_left].
  - simpl. rewrite app_nil_r, py_sum_nil. split; [reflexivity | ring].
  - destruct (cap_step_eq cap cw0 e0 k w) as (e' & -> & He').
    assert (Hfresh : ~ In k (keys cw0)).
    { intros Hin. simpl in Hnd. apply NoDup_remove_2 in Hnd. apply Hnd.
      apply in_or_app. now left. }
    destruct (IH (setitem cw0 k (capped_weight cap w)) e') as [IH1 IH2].
    { rewrite keys_setitem_fresh by assumption. rewrite <- app_assoc. exact Hnd. }
    split.
    + rewrite IH1, setitem_fresh by assumption. now rewrite <- app_assoc.
    + rewrite IH2, He'. simpl. rewrite py_sum_cons. ring.
Qed.

Lemma apply_cap_weights initial cap :
  NoDup (keys initial) ->
  fst (apply_cap initial cap) = map_values (capped_weight cap) initial.
Proof.
  intros Hnd. unfold apply_cap.
  destruct (cap_loop cap initial [] 0) as [H _]; [exact Hnd | exact H].
Qed.

Lemma apply_cap_excess initial cap :
  NoDup (keys initial) ->
  snd (apply_cap initial cap) == py_sum (map (excess_part cap) (values initial)).
Proof.
  intros Hnd. unfold apply_cap.
  destruct (cap_loop cap initial [] 0) as [_ H]; [exact Hnd|].
  rewrite H. ring.
Qed.

Lemma non_capped_from_eq initial cap items :
  (forall k w, In (k, w) items -> get initial k = Some w) ->
  non_capped_from initial cap items = Ok (keys (filter (is_under cap) items)).
Proof.
  induction items as [|[k w] items IH]; intros H; simpl; [reflexivity|].
  unfold getitem. rewrite (H k w) by now left. simpl.
  rewrite IH by (intros; apply H; now right). simpl.
  change (is_under cap (k, w)) with (Qle_bool w cap).
  destruct (Qle_bool w cap); reflexivity.
Qed.

Lemma non_capped_equities_eq initial cap :
  NoDup (keys initial) ->
  non_capped_equities initial cap = Ok (keys (filter (is_under cap) initial)).
Proof.
  intros Hnd. apply non_capped_from_eq. intros k w. now apply In_get.
Qed.

Lemma sum_lookups initial items : forall acc,
  (forall k w, In (k, w) items -> get initial k = Some w) ->
  for_each (fun acc tk => w <- getitem initial tk ;; Ok (acc + w)) (keys items) acc
  = Ok (fold_left Qplus (values items) acc).
Proof.
  induction items as [|[k w] items IH]; intros acc H; simpl; [reflexivity|].
  unfold getitem. rewrite (H k w) by now left. simpl.
  apply IH. intros; apply H; now right.
Qed.

Lemma non_capped_total_eq initial cap :
  NoDup (keys initial) ->
  non_capped_total initial (keys (filter (is_under cap) initial))
  = Ok (py_sum (values (filter (is_under cap) initial))).
Proof.
  intros Hnd. unfold non_capped_total, py_sum. apply sum_lookups.
  intros k w Hin. apply filter_In in Hin. now apply In_get.
Qed.

Lemma redistribute_step_eq initial cap excess nct cw k w c :
  get initial k = Some w -> get cw k = Some c ->
  redistribute_step initial cap excess nct cw k
  = Ok (setitem cw k (Qmin (c + excess * (w / nct)) cap)).
Proof.
  intros Hw Hc. unfold redistribute_step, getitem.
  rewrite Hw, Hc. simpl. rewrite get_setitem_same. simpl.
  now rewrite setitem_setitem.
Qed.

Lemma redistribute_loop initial cap excess nct ks : forall cw,
  NoDup ks ->
  (forall k, In k ks -> In k (keys initial)) ->
  (forall k, In k ks -> In k (keys cw)) ->
  exists cw',
    for_each (redistribute_step initial cap excess nct) ks cw = Ok cw'
    /\ keys cw' = keys cw
    /\ (forall k, ~ In k ks -> get cw' k = get cw k)
    /\ (forall k w c, In k ks -> get initial k = Some w -> get cw k = Some c ->
          get cw' k = Some (Qmin (c + excess * (w / nct)) cap)).
Proof.
  induction ks as [|k ks IH]; intros cw Hnd Hiw Hcw; simpl.
  - exists cw. repeat split; auto. intros k w c [].
  - inversion Hnd as [|? ? Hnotin Hnd']; subst.
    destruct (In_keys_get initial k) as [w Hw]; [apply Hiw; now left|].
    destruct (In_keys_get cw k) as [c Hc]; [apply Hcw; now left|].
    rewrite (redistribute_step_eq _ _ _ _ _ _ _ _ Hw Hc). simpl.
    set (cw1 := setitem cw k (Qmin (c + excess * (w / nct)) cap)).
    assert (Hk1 : keys cw1 = keys cw).
    { apply keys_setitem_present. apply Hcw. now left. }
    destruct (IH cw1 Hnd') as (cw' & Hrun & Hkeys & Hout & Hin).
    { intros; apply Hiw; now right. }
    { intros k' Hk'. rewrite Hk1. apply Hcw. now right. }
    exists cw'. split; [exact Hrun|]. split; [congruence|]. split.
    + intros k' Hk'. rewrite Hout by (intros ?; apply Hk'; now right).
      apply get_setitem_other. intros ->. apply Hk'. now left.
    + intros k' w' c' [<-|Hk'] Hw' Hc'.
      * rewrite Hout by assumption. unfold cw1. rewrite get_setitem_same.
        congruence.
      * apply Hin; [assumption..|]. unfold cw1.
        rewrite get_setitem_other; [assumption|]. intros ->. contradiction.
Qed.

Lemma NoDup_keys_filter {V : Type} (f : string * V -> bool) (d : dict V) :
  NoDup (keys d) -> NoDup (keys (filter f d)).
Proof.
  induction d as [|[k v] d IH]; simpl; intros Hnd; [constructor|].
  inversion Hnd as [|? ? Hnotin Hnd']; subst.
  destruct (f (k, v)); simpl; [|auto].
  constructor; [|auto]. intros Hin. apply Hnotin.
  unfold keys in *. apply in_map_iff in Hin. destruct Hin as ([k' v'] & <- & Hin).
  apply filter_In in Hin. destruct Hin as [Hin _].
  apply (in_map fst) in Hin. apply Hin.
Qed.

Lemma In_keys_filter {V : Type} (f : string * V -> bool) (d : dict V) k :
  NoDup (keys d) ->
  (In k (keys (filter f d)) <-> exists v, get d k = Some v /\ f (k, v) = true).
Proof.
  intros Hnd. unfold keys. rewrite in_map_iff. split.
  - intros ([k' v] & <- & Hin). apply filter_In in Hin. destruct Hin as [Hin Hf].
    exists v. split; [now apply In_get | exact Hf].
  - intros (v & Hget & Hf). exists (k, v). split; [reflexivity|].
    apply filter_In. split; [now apply get_Some_In | exact Hf].
Qed.

Lemma redistribute_eq initial cap excess nct :
  NoDup (keys initial) ->
  for_each (redistribute_step initial cap excess nct)
           (keys (filter (is_under cap) initial))
           (map_values (capped_weight cap) initial)
  = Ok (map_values (final_weight cap excess nct) initial).
Proof.
  intros Hnd.
  destruct (redistribute_loop initial cap excess nct
              (keys (filter (is_under cap) initial))
              (map_values (capped_weight cap) initial))
    as (cw' & Hrun & Hkeys & Hout & Hin).
  { now apply NoDup_keys_filter. }
  { intros k Hk. apply In_keys_filter in Hk; [|assumption].
    destruct Hk as (v & Hv & _). eapply get_Some_keys; eauto. }
  { intros k Hk. rewrite keys_map_values'. apply In_keys_filter in Hk; [|assumption].
    destruct Hk as (v & Hv & _). eapply get_Some_keys; eauto. }
  rewrite Hrun. f_equal. apply dict_ext.
  - rewrite Hkeys, keys_map_values'. exact Hnd.
  - rewrite Hkeys, !keys_map_values'. reflexivity.
  - intros k. rewrite get_map_values'.
    destruct (in_dec string_dec k (keys (filter (is_under cap) initial))) as [Hk|Hk].
    + pose proof Hk as Hk'. apply In_keys_filter in Hk'; [|assumption].
      destruct Hk' as (w & Hw & Hu). unfold is_under in Hu. simpl in Hu.
      rewrite (Hin k w (capped_weight cap w) Hk Hw).
      * rewrite Hw. simpl. unfold final_weight. rewrite Hu.
        rewrite capped_weight_alt, Hu. reflexivity.
      * rewrite get_map_values', Hw. reflexivity.
    + rewrite Hout by assumption. rewrite get_map_values'.
      destruct (get initial k) as [w|] eqn:Hw; [simpl|reflexivity].
      destruct (Qle_bool w cap) eqn:Hu.
      * exfalso. apply Hk. apply In_keys_filter; [assumption|]. eauto.
      * unfold final_weight. rewrite capped_weight_alt, Hu. reflexivity.
Qed.

(** * [calculate_weights_with_cap] in closed form *)

Lemma initial_weights_NoDup equities total :
  NoDup (keys (initial_weights equities total)).
Proof. apply NoDup_keys_comprehension. constructor. Qed.

Lemma calculate_weights_with_cap_eq equities cap :
  let initial := initial_of equities in
  let excess := excess_of equities cap in
  let nct := under_total initial cap in
  Qeq_bool (total_market_cap equities) 0 = false ->
  calculate_weights_with_cap equities cap
  = Ok (if Qltb 0 excess && Qltb 0 nct
        then map_values (final_weight cap excess nct) initial
        else map_values (capped_weight cap) initial).
Proof.
  intros initial excess nct Htot. unfold calculate_weights_with_cap.
  rewrite Htot. fold (initial_of equities). fold initial.
  assert (Hnd : NoDup (keys initial)) by apply initial_weights_NoDup.
  pose proof (apply_cap_weights initial cap Hnd) as Hcw.
  unfold excess, excess_of. fold initial.
  destruct (apply_cap initial cap) as [cw ex]. simpl in Hcw |- *. subst cw.
  destruct (Qltb 0 ex) eqn:Hex; simpl; [|reflexivity].
  rewrite non_capped_equities_eq by assumption. simpl.
  pose proof (non_capped_total_eq initial cap Hnd) as Hnct.
  fold (under_total initial cap) in Hnct. fold nct in Hnct.
  destruct (keys (filter (is_under cap) initial)) as [|k ks] eqn:Hks.
  - unfold nct, under_total.
    assert (filter (is_under cap) initial = []) as ->
        by (destruct (filter (is_under cap) initial); [reflexivity|discriminate]).
    reflexivity.
  - rewrite Hnct. cbn [bind].
    destruct (Qltb 0 nct) eqn:Hpos; [|reflexivity].
    rewrite <- Hks. now apply redistribute_eq.
Qed.

Lemma calculate_weights_with_cap_total_zero equities cap :
  total_market_cap equities == 0 ->
  calculate_weights_with_cap equities cap = Raise TotalMarketCapZero.
Proof.
  intros H. unfold calculate_weights_with_cap.
  now rewrite (Qeq_eq_bool _ _ H).
Qed.

Lemma Qeq_bool_false_iff a b : Qeq_bool a b = false <-> ~ a == b.
Proof.
  split; [apply Qeq_bool_neq|].
  intros H. destruct (Qeq_bool a b) eqn:E; [|reflexivity].
  apply Qeq_bool_eq in E. contradiction.
Qed.

Lemma keys_weights equities cap weights :
  calculate_weights_with_cap equities cap = Ok weights ->
  keys weights = keys (initial_of equities).
Proof.
  intros H.
  destruct (Qeq_bool (total_market_cap equities) 0) eqn:Htot.
  - unfold calculate_weights_with_cap in H. rewrite Htot in H. discriminate.
  - rewrite calculate_weights_with_cap_eq in H by assumption.
    injection H as <-.
    destruct (_ && _); apply keys_map_values'.
Qed.

Lemma In_keys_initial equities total k :
  In k (keys (initial_weights equities total)) <-> In k (map ticker equities).
Proof.
  unfold initial_weights. rewrite keys_comprehension. simpl. tauto.
Qed.

Lemma In_initial_weights equities total k w :
  In (k, w) (initial_weights equities total) ->
  exists e, In e equities /\ ticker e = k /\ w = market_cap e / total.
Proof.
  intros H. apply In_get in H; [|apply initial_weights_NoDup].
  apply get_comprehension in H. destruct H as [H|H]; [discriminate | exact H].
Qed.

(** * Sums of weights *)



Lemma Qdiv_nonneg a b : 0 <= a -> 0 < b -> 0 <= a / b.
Proof.
  intros Ha Hb. apply Qle_shift_div_l; [assumption | lra].
Qed.

Lemma sum_market_cap_shares equities total :
  ~ total == 0 ->
  py_sum (map (fun e => market_cap e / total) equities)
  == total_market_cap equities / total.
Proof.
  intros Hne. unfold total_market_cap.
  rewrite (py_sum_map_eq (fun e => market_cap e / total)
             (fun e => market_cap e * / total)) by (intros; reflexivity).
  rewrite (py_sum_map_scale market_cap (/ total)). reflexivity.
Qed.

Lemma initial_nonneg equities k w :
  (forall e, In e equities -> 0 <= market_cap e) ->
  0 < total_market_cap equities ->
  In (k, w) (initial_of equities) -> 0 <= w.
Proof.
  intros Hmc Htot Hin. apply In_initial_weights in Hin.
  destruct Hin as (e & He & _ & ->). apply Qdiv_nonneg; auto.
Qed.

Lemma In_values_inv {V : Type} (d : dict V) v :
  In v (values d) -> exists k, In (k, v) d.
Proof.
  unfold values. rewrite in_map_iff. intros ([k v'] & <- & H). now exists k.
Qed.


(** With distinct tickers the initial weights sum to exactly 1. *)
Lemma sum_initial_eq_one equities :
  NoDup (map ticker equities) ->
  ~ total_market_cap equities == 0 ->
  py_sum (values (initial_of equities)) == 1.
Proof.
  intros Hnd Htot. unfold initial_of, initial_weights.
  rewrite comprehension_NoDup by exact Hnd. simpl.
  unfold values. rewrite map_map. simpl.
  rewrite sum_market_cap_shares by assumption. field. assumption.
Qed.

Lemma sum_capped initial cap :
  NoDup (keys initial) ->
  py_sum (values (map_values (capped_weight cap) initial)) + snd (apply_cap initial cap)
  == py_sum (values initial).
Proof.
  intros Hnd. rewrite apply_cap_excess by assumption.
  rewrite values_map_values, <- py_sum_map_plus.
  rewrite <- (map_id (values initial)) at 2.
  apply py_sum_map_eq. intros w _. apply capped_plus_excess.
Qed.

Lemma values_filter_under initial cap :
  values (filter (is_under cap) initial)
  = filter (fun w => Qle_bool w cap) (values initial).
Proof.
  induction initial as [|[k w] d IH]; simpl; [reflexivity|].
  change (is_under cap (k, w)) with (Qle_bool w cap).
  destruct (Qle_bool w cap); simpl; now rewrite IH.
Qed.

Lemma py_sum_filter (f : Q -> bool) (g : Q -> Q) l :
  py_sum (map (fun x => if f x then g x else 0) l) == py_sum (map g (filter f l)).
Proof.
  induction l as [|x l IH]; simpl; [reflexivity|].
  rewrite py_sum_cons, IH. destruct (f x); simpl.
  - now rewrite py_sum_cons.
  - ring.
Qed.

(** Total weight handed out by the redistribution loop before clamping. *)
Lemma sum_redistributed initial cap excess :
  let nct := under_total initial cap in
  0 < nct ->
  py_sum (map (fun w => if Qle_bool w cap then w * (excess / nct) else 0)
              (values initial))
  == excess.
Proof.
  intros nct Hpos.
  rewrite (py_sum_filter (fun w => Qle_bool w cap) (fun w => w * (excess / nct))).
  rewrite (py_sum_map_scale (fun w => w)), map_id, <- values_filter_under.
  fold (under_total initial cap). fold nct. field. lra.
Qed.


Lemma final_weight_unclamped cap excess nct w :
  (Qle_bool w cap = true -> w + excess * (w / nct) <= cap) ->
  final_weight cap excess nct w
  == capped_weight cap w + (if Qle_bool w cap then w * (excess / nct) else 0).
Proof.
  intros H. unfold final_weight. rewrite capped_weight_alt.
  destruct (Qle_bool w cap).
  - rewrite Q.min_l by auto. unfold Qdiv; ring.
  - ring.
Qed.


Lemma sum_final_eq initial cap excess :
  let nct := under_total initial cap in
  0 < nct ->
  (forall w, In w (values initial) -> Qle_bool w cap = true ->
             w + excess * (w / nct) <= cap) ->
  py_sum (values (map_values (final_weight cap excess nct) initial))
  == py_sum (values (map_values (capped_weight cap) initial)) + excess.
Proof.
  intros nct Hpos Hno. rewrite !values_map_values.
  rewrite <- (sum_redistributed initial cap excess Hpos) at 2.
  fold nct. rewrite <- py_sum_map_plus.
  apply py_sum_map_eq. intros w Hw. apply final_weight_unclamped. auto.
Qed.

Lemma excess_nonneg initial cap :
  NoDup (keys initial) -> 0 <= snd (apply_cap initial cap).
Proof.
  intros Hnd. rewrite apply_cap_excess by assumption.
  apply py_sum_nonneg. intros x Hx. apply in_map_iff in Hx.
  destruct Hx as (w & <- & _). apply excess_part_nonneg.
Qed.

(** * Bounds on the weights *)

Lemma In_map_values {V W : Type} (f : V -> W) (d : dict V) k y :
  In (k, y) (map_values f d) <-> exists v, In (k, v) d /\ y = f v.
Proof.
  unfold map_values. rewrite in_map_iff. split.
  - intros ([k' v] & [= <- <-] & Hin). eauto.
  - intros (v & Hin & ->). exists (k, v). auto.
Qed.

Lemma capped_weight_le_cap cap w : capped_weight cap w <= cap.
Proof.
  unfold capped_weight. destruct (Qltb cap w) eqn:E; [lra|].
  now apply Qltb_ge in E.
Qed.

Lemma capped_weight_nonneg cap w : 0 <= w -> 0 <= cap -> 0 <= capped_weight cap w.
Proof. intros. unfold capped_weight. destruct (Qltb cap w); assumption. Qed.

Lemma final_weight_le_cap cap excess nct w : final_weight cap excess nct w <= cap.
Proof.
  unfold final_weight. destruct (Qle_bool w cap); [apply Q.le_min_r | lra].
Qed.

Lemma redistributed_ge excess nct w :
  0 <= w -> 0 <= excess -> 0 < nct -> w <= w + excess * (w / nct).
Proof.
  intros Hw He Hn.
  assert (0 <= w / nct) by now apply Qdiv_nonneg.
  assert (0 <= excess * (w / nct)) by now apply Qmult_le_0_compat.
  lra.
Qed.

Lemma final_weight_nonneg cap excess nct w :
  0 <= w -> 0 <= cap -> 0 <= excess -> 0 < nct ->
  0 <= final_weight cap excess nct w.
Proof.
  intros Hw Hc He Hn. unfold final_weight.
  destruct (Qle_bool w cap); [|assumption].
  apply Q.min_glb; [|assumption].
  pose proof (redistributed_ge excess nct w Hw He Hn). lra.
Qed.

(** Every returned weight is at most the cap, whatever the input. *)
Lemma weights_le_cap equities cap weights tk w :
  calculate_weights_with_cap equities cap = Ok weights ->
  In (tk, w) weights -> w <= cap.
Proof.
  intros Hrun Hin.
  destruct (Qeq_bool (total_market_cap equities) 0) eqn:Htot.
  - unfold calculate_weights_with_cap in Hrun. rewrite Htot in Hrun. discriminate.
  - rewrite calculate_weights_with_cap_eq in Hrun by assumption.
    injection Hrun as <-.
    destruct (_ && _); apply In_map_values in Hin; destruct Hin as (v & _ & ->).
    + apply final_weight_le_cap.
    + apply capped_weight_le_cap.
Qed.

(** With non-negative market caps and a non-negative cap no weight is negative. *)
Lemma weights_nonneg equities cap weights tk w :
  (forall e, In e equities -> 0 <= market_cap e) ->
  0 < total_market_cap equities -> 0 <= cap ->
  calculate_weights_with_cap equities cap = Ok weights ->
  In (tk, w) weights -> 0 <= w.
Proof.
  intros Hmc Htot Hcap Hrun Hin.
  rewrite calculate_weights_with_cap_eq in Hrun
    by (apply Qeq_bool_false_iff; lra).
  injection Hrun as <-.
  destruct (Qltb 0 (excess_of equities cap)
            && Qltb 0 (under_total (initial_of equities) cap)) eqn:Hred;
    apply In_map_values in Hin; destruct Hin as (v & Hv & ->);
    pose proof (initial_nonneg equities tk v Hmc Htot Hv).
  - apply andb_true_iff in Hred. destruct Hred as [He Hn].
    apply Qltb_lt in He, Hn. apply final_weight_nonneg; lra.
  - now apply capped_weight_nonneg.
Qed.

Lemma calculate_weights_with_cap_ok equities cap :
  ~ total_market_cap equities == 0 ->
  exists weights, calculate_weights_with_cap equities cap = Ok weights.
Proof.
  intros H. apply Qeq_bool_false_iff in H.
  rewrite calculate_weights_with_cap_eq by assumption. eauto.
Qed.


(** * The claims about [calculate_weights_with_cap] *)

(** C2.  For a non-empty equity list with non-negative market caps, positive
    total market cap and a cap in (0, 1], [calculate_weights_with_cap]
    returns a weight map in which every weight lies in [0, cap] and every
    ticker is a ticker of the input. *)
Theorem weights_within_cap (equities : list Equity) (cap : Q) :
  equities <> [] ->
  (forall e, In e equities -> 0 <= market_cap e) ->
  0 < total_market_cap equities ->
  0 < cap -> cap <= 1 ->
  exists weights,
    calculate_weights_with_cap equities cap = Ok weights
    /\ (forall tk w, In (tk, w) weights -> 0 <= w /\ w <= cap)
    /\ (forall tk, In tk (keys weights) -> In tk (map ticker equities)).
Proof.
  intros _ Hmc Htot Hcap _.
  destruct (calculate_weights_with_cap_ok equities cap) as [weights Hrun]; [lra|].
  exists weights. split; [exact Hrun|]. split.
  - intros tk w Hin. split.
    + eapply weights_nonneg; eauto. lra.
    + eapply weights_le_cap; eauto.
  - intros tk Hin. rewrite (keys_weights _ _ _ Hrun) in Hin.
    now apply In_keys_initial in Hin.
Qed.

Lemma weights_within_cap_witness :
  exists weights,
    calculate_weights_with_cap
      fund_abc (3#8) = Ok weights
    /\ (forall tk w, In (tk, w) weights -> 0 <= w /\ w <= 3#8)
    /\ (forall tk, In tk (keys weights) ->
          In tk (map ticker fund_abc)).
Proof.
  apply (weights_within_cap fund_abc (3#8)).
  - discriminate.
  - intros e [<-|[<-|[<-|[]]]]; simpl; lra.
  - reflexivity.
  - reflexivity.
  - vm_compute. discriminate.
Defined.



(** C1, as stated, fails on scenario 2 (a single equity, cap 1/2): the list
    is not empty, the total is positive and no clamp of the redistribution
    loop reduces a weight (the loop has no ticker to visit), yet the only
    weight is the cap and the weights sum to 1/2. *)
Lemma sum_to_one_fails_single_equity :
  scenario2 <> []
  /\ 0 < total_market_cap scenario2
  /\ clamp_never_reduces scenario2 (1#2)
  /\ exists weights,
       calculate_weights_with_cap scenario2 (1#2) = Ok weights
       /\ ~ py_sum (values weights) == 1.
Proof.
  split; [discriminate|]. split; [reflexivity|]. split.
  - intros non_capped total_non_capped tk w Hnc _ Hin _.
    vm_compute in Hnc. injection Hnc as <-. destruct Hin.
  - eexists. split; [vm_compute; reflexivity|].
    vm_compute. discriminate.
Qed.

(** C1, amended.  For an equity list with distinct tickers and positive total
    market cap in which the excess taken from capped tickers has non-capped
    tickers of positive total weight to go to, and in which the clamp of the
    redistribution loop reduces no weight, the returned weights sum to 1. *)
Theorem weights_sum_to_one (equities : list Equity) (cap : Q) :
  NoDup (map ticker equities) ->
  0 < total_market_cap equities ->
  excess_has_receivers equities cap ->
  clamp_never_reduces equities cap ->
  exists weights,
    calculate_weights_with_cap equities cap = Ok weights
    /\ py_sum (values weights) == 1.
Proof.
  intros Hdistinct Htot Hrecv Hclamp.
  assert (Hne : ~ total_market_cap equities == 0) by lra.
  pose proof (sum_initial_eq_one equities Hdistinct Hne) as Hone.
  assert (Hnd : NoDup (keys (initial_of equities)))
    by apply initial_weights_NoDup.
  pose proof (sum_capped (initial_of equities) cap Hnd) as Hsum.
  pose proof (excess_nonneg (initial_of equities) cap Hnd) as Hex.
  pose proof (non_capped_equities_eq (initial_of equities) cap Hnd) as Hnce.
  pose proof (non_capped_total_eq (initial_of equities) cap Hnd) as Hnct.
  fold (under_total (initial_of equities) cap) in Hnct.
  fold (excess_of equities cap) in Hsum, Hex.
  rewrite calculate_weights_with_cap_eq by now apply Qeq_bool_false_iff.
  eexists. split; [reflexivity|].
  destruct (Qltb 0 (excess_of equities cap)) eqn:He; simpl.
  - apply Qltb_lt in He.
    destruct (Hrecv He) as (nc & t & Hnc' & Ht' & Hpos).
    rewrite Hnce in Hnc'. injection Hnc' as <-.
    rewrite Hnct in Ht'. injection Ht' as <-.
    assert (Qltb 0 (under_total (initial_of equities) cap) = true) as ->
        by now apply Qltb_lt.
    rewrite (sum_final_eq (initial_of equities) cap (excess_of equities cap) Hpos).
    + lra.
    + intros w Hw Hu. apply In_values_inv in Hw. destruct Hw as [k Hk].
      apply (Hclamp _ _ k w Hnce Hnct).
      * apply In_keys_filter; [assumption|]. exists w. split; [|exact Hu].
        now apply In_get.
      * now apply In_get.
  - apply Qltb_ge in He. lra.
Qed.

Lemma weights_sum_to_one_witness :
  exists weights,
    calculate_weights_with_cap fund_abc (7#16) = Ok weights
    /\ py_sum (values weights) == 1.
Proof.
  apply (weights_sum_to_one fund_abc (7#16)).
  - repeat constructor; simpl; intuition discriminate.
  - reflexivity.
  - intros _. eexists. eexists. split; [vm_compute; reflexivity|].
    split; [vm_compute; reflexivity|]. reflexivity.
  - intros nc t tk w Hnc Ht Hin Hget.
    vm_compute in Hnc. injection Hnc as <-.
    vm_compute in Ht. injection Ht as <-.
    destruct Hin as [<-|[<-|[]]]; vm_compute in Hget; injection Hget as <-;
      vm_compute; discriminate.
Defined.

(** C7, as stated, fails: a cap outside (0, 1] is not rejected.  With cap 2
    scenario 2 gets a weight map and no exception. *)
Lemma invalid_cap_not_rejected :
  ~ (0 < 2 /\ 2 <= 1)
  /\ scenario2 <> []
  /\ 0 < total_market_cap scenario2
  /\ is_ok (calculate_weights_with_cap scenario2 2) = true.
Proof.
  split; [intros [_ H]; vm_compute in H; now apply H|].
  split; [discriminate|]. split; reflexivity.
Qed.

(** C7, amended.  [calculate_weights_with_cap] validates the total market cap
    only: it raises ValueError("Total market cap is zero") exactly when the
    total is zero, which is how it reports the empty list too; for every
    other input, whatever the cap, it raises nothing and returns a weight
    map.  The empty list is reported as ValueError("Fund data is empty") by
    [replicate_index_fund], before [calculate_shares] is called. *)
Theorem weights_validation (equities : list Equity) (cap : Q) :
  (calculate_weights_with_cap equities cap = Raise TotalMarketCapZero
   <-> total_market_cap equities == 0)
  /\ (is_ok (calculate_weights_with_cap equities cap) = true
      <-> ~ total_market_cap equities == 0)
  /\ calculate_weights_with_cap [] cap = Raise TotalMarketCapZero
  /\ is_ValueError TotalMarketCapZero = true
  /\ (forall investment rate,
        replicate_index_fund [] investment rate cap = Raise FundDataEmpty)
  /\ is_ValueError FundDataEmpty = true.
Proof.
  assert (Hdec : total_market_cap equities == 0 \/ ~ total_market_cap equities == 0).
  { destruct (Qeq_dec (total_market_cap equities) 0); auto. }
  repeat split; try reflexivity.
  - intros Hraise. destruct Hdec as [H|H]; [assumption|].
    destruct (calculate_weights_with_cap_ok equities cap H) as [w Hw].
    congruence.
  - apply calculate_weights_with_cap_total_zero.
  - intros Hok Hz.
    rewrite (calculate_weights_with_cap_total_zero _ _ Hz) in Hok. discriminate.
  - intros H. destruct (calculate_weights_with_cap_ok equities cap H) as [w ->].
    reflexivity.
Qed.

(** C6, as stated, fails: lowering the cap from 1/2 to 7/16 raises the weight
    of ticker A of [fund_abc] (initial weight 1/8, below both caps) from 1/8
    to 9/64, because C becomes capped and its excess is redistributed. *)
Lemma lower_cap_raises_uncapped_weight :
  (7#16) < (1#2)
  /\ (exists w0, get (initial_of fund_abc) "A" = Some w0 /\ w0 <= 1#2)
  /\ exists w w',
       weight_of fund_abc (1#2) "A" = Some w
       /\ weight_of fund_abc (7#16) "A" = Some w'
       /\ w == 1#8 /\ w' == 9#64
       /\ ~ w' <= w.
Proof.
  split; [reflexivity|]. split.
  - eexists. split; [vm_compute; reflexivity|]. vm_compute. discriminate.
  - eexists. eexists. split; [vm_compute; reflexivity|].
    split; [vm_compute; reflexivity|].
    split; [reflexivity|]. split; [reflexivity|].
    intros H. vm_compute in H. now apply H.
Qed.

Lemma weight_of_eq equities cap tk w0 :
  ~ total_market_cap equities == 0 ->
  get (initial_of equities) tk = Some w0 ->
  weight_of equities cap tk
  = Some (if Qltb 0 (excess_of equities cap)
             && Qltb 0 (under_total (initial_of equities) cap)
          then final_weight cap (excess_of equities cap)
                 (under_total (initial_of equities) cap) w0
          else capped_weight cap w0).
Proof.
  intros Hne Hget. unfold weight_of.
  rewrite calculate_weights_with_cap_eq by now apply Qeq_bool_false_iff.
  destruct (_ && _); rewrite get_map_values', Hget; reflexivity.
Qed.

(** C6, amended.  With non-negative market caps and positive total, lowering
    the cap from [c] to [c'] does not raise the weight of a ticker that was
    not capped under [c] and is capped under [c'] (initial weight in
    (c', c]): its weight under [c'] is [c'], at most its weight under [c]. *)
Theorem lower_cap_caps_weight (equities : list Equity) (c c' : Q)
  (tk : string) (w0 : Q) :
  (forall e, In e equities -> 0 <= market_cap e) ->
  0 < total_market_cap equities ->
  c' < c ->
  get (initial_of equities) tk = Some w0 ->
  c' < w0 -> w0 <= c ->
  exists w w',
    weight_of equities c tk = Some w
    /\ weight_of equities c' tk = Some w'
    /\ w' = c'
    /\ w' <= w.
Proof.
  intros Hmc Htot Hlt Hget Hover Hunder.
  assert (Hne : ~ total_market_cap equities == 0) by lra.
  assert (Hw0 : 0 <= w0).
  { eapply initial_nonneg; eauto. eapply get_Some_In; eauto. }
  rewrite (weight_of_eq equities c tk w0 Hne Hget).
  rewrite (weight_of_eq equities c' tk w0 Hne Hget).
  eexists. eexists. split; [reflexivity|]. split; [reflexivity|].
  assert (Hc' : Qle_bool w0 c' = false) by now apply Qle_bool_gt.
  assert (Hc : Qle_bool w0 c = true) by now apply Qle_bool_iff.
  assert (Hnew : (if Qltb 0 (excess_of equities c')
                     && Qltb 0 (under_total (initial_of equities) c')
                  then final_weight c' (excess_of equities c')
                         (under_total (initial_of equities) c') w0
                  else capped_weight c' w0) = c').
  { unfold final_weight. rewrite capped_weight_alt, Hc'. now destruct (_ && _). }
  split; [exact Hnew|]. rewrite Hnew.
  destruct (Qltb 0 (excess_of equities c)
            && Qltb 0 (under_total (initial_of equities) c)) eqn:Hred.
  - apply andb_true_iff in Hred. destruct Hred as [He Hn].
    apply Qltb_lt in He, Hn. unfold final_weight. rewrite Hc.
    apply Q.min_glb; [|lra].
    pose proof (redistributed_ge (excess_of equities c)
                  (under_total (initial_of equities) c) w0). lra.
  - rewrite capped_weight_alt, Hc. lra.
Qed.

Lemma lower_cap_caps_weight_witness :
  exists w w',
    weight_of fund_abc (1#2) "B" = Some w
    /\ weight_of fund_abc (1#4) "B" = Some w'
    /\ w' = 1#4
    /\ w' <= w.
Proof.
  apply (lower_cap_caps_weight fund_abc (1#2) (1#4) "B" ((3#1) / (8#1))).
  - intros e [<-|[<-|[<-|[]]]]; simpl; lra.
  - reflexivity.
  - reflexivity.
  - vm_compute. reflexivity.
  - reflexivity.
  - vm_compute. discriminate.
Defined.

(** * Truncation *)

Lemma int_floor x : 0 <= x -> int x = Qfloor x.
Proof.
  destruct x as [n d]. unfold Qle, int, Qfloor. simpl. intros H.
  apply Z.quot_div_nonneg; lia.
Qed.


Lemma int_nonneg x : 0 <= x -> (0 <= int x)%Z.
Proof.
  destruct x as [n d]. unfold Qle, int. simpl. intros H.
  apply Z.quot_pos; lia.
Qed.






(** * The share loop *)

Lemma shares_step_cases by_ticker investment rate sh tot k w :
  match get by_ticker k with
  | None =>
      shares_step by_ticker investment rate (sh, tot) (k, w) = Raise (KeyError k)
  | Some e =>
      if Qle_bool (price e) 0
      then shares_step by_ticker investment rate (sh, tot) (k, w)
           = Raise (InvalidPrice k (price e))
      else if Qeq_bool (price e * (1 + rate)) 0
      then shares_step by_ticker investment rate (sh, tot) (k, w)
           = Raise ZeroDivisionError
      else shares_step by_ticker investment rate (sh, tot) (k, w)
           = Ok (setitem sh k (shares_for by_ticker investment rate (k, w)),
                 tot + cost_for by_ticker investment rate (k, w))
  end.
Proof.
  unfold shares_step, getitem, shares_for, cost_for, share_count, truediv. simpl.
  destruct (get by_ticker k) as [e|]; simpl; [|reflexivity].
  destruct (Qle_bool (price e) 0); [reflexivity|].
  destruct (Qeq_bool (price e * (1 + rate)) 0); reflexivity.
Qed.

(** What a run of the loop that ends normally has computed. *)
Lemma shares_loop_inv by_ticker investment rate items : forall sh0 tot0 sh tot,
  for_each (shares_step by_ticker investment rate) items (sh0, tot0) = Ok (sh, tot) ->
  NoDup (keys sh0 ++ keys items) ->
  sh = sh0 ++ shares_map by_ticker investment rate items
  /\ tot == tot0 + py_sum (map (cost_for by_ticker investment rate) items)
  /\ forall k w, In (k, w) items ->
       exists e, get by_ticker k = Some e /\ 0 < price e.
Proof.
  induction items as [|[k w] items IH]; intros sh0 tot0 sh tot Hrun Hnd.
  - simpl in Hrun. injection Hrun as <- <-. simpl.
    rewrite app_nil_r, py_sum_nil. repeat split; [ring | intros k w []].
  - cbn [for_each] in Hrun.
    pose proof (shares_step_cases by_ticker investment rate sh0 tot0 k w) as Hstep.
    destruct (get by_ticker k) as [e|] eqn:Hget;
      [|rewrite Hstep in Hrun; discriminate].
    destruct (Qle_bool (price e) 0) eqn:Hp;
      [rewrite Hstep in Hrun; discriminate|].
    destruct (Qeq_bool (price e * (1 + rate)) 0) eqn:Hz;
      rewrite Hstep in Hrun; [discriminate|].
    cbn [bind] in Hrun.
    assert (Hfresh : ~ In k (keys sh0)).
    { intros Hin. simpl in Hnd. apply NoDup_remove_2 in Hnd. apply Hnd.
      apply in_or_app. now left. }
    apply IH in Hrun.
    + destruct Hrun as (Hsh & Htot & Hall). split; [|split].
      * rewrite Hsh, setitem_fresh by assumption. now rewrite <- app_assoc.
      * rewrite Htot. simpl. rewrite py_sum_cons. ring.
      * intros k' w' [[= <- <-]|Hin]; [|eauto].
        exists e. split; [assumption|]. now apply Qle_bool_gt.
    + rewrite keys_setitem_fresh by assumption. rewrite <- app_assoc. exact Hnd.
Qed.



Lemma In_keys_equity_dict equities k :
  In k (keys (equity_dict equities)) <-> In k (map ticker equities).
Proof. unfold equity_dict. rewrite keys_comprehension. simpl. tauto. Qed.

Lemma get_equity_dict equities k e :
  get (equity_dict equities) k = Some e -> In e equities /\ ticker e = k.
Proof.
  intros H. apply get_comprehension in H.
  destruct H as [H|(e' & Hin & Hk & ->)]; [discriminate | auto].
Qed.

Lemma weights_keys_in_equity_dict equities cap weights k :
  calculate_weights_with_cap equities cap = Ok weights ->
  In k (keys weights) -> In k (keys (equity_dict equities)).
Proof.
  intros Hrun Hin. rewrite (keys_weights _ _ _ Hrun) in Hin.
  apply In_keys_equity_dict. now apply In_keys_initial in Hin.
Qed.

Lemma weights_NoDup equities cap weights :
  calculate_weights_with_cap equities cap = Ok weights -> NoDup (keys weights).
Proof.
  intros Hrun. rewrite (keys_weights _ _ _ Hrun). apply initial_weights_NoDup.
Qed.

(** [calculate_shares] unfolded: what a normal return consists of. *)
Lemma calculate_shares_inv equities investment rate cap shares incl excl :
  calculate_shares equities investment rate cap = Ok (shares, incl, excl) ->
  0 < investment
  /\ exists weights,
      calculate_weights_with_cap equities cap = Ok weights
      /\ shares = shares_map (equity_dict equities) investment rate weights
      /\ excl == py_sum (map (cost_for (equity_dict equities) investment rate) weights)
      /\ incl = excl + excl * rate
      /\ forall k w, In (k, w) weights ->
           exists e, get (equity_dict equities) k = Some e /\ 0 < price e.
Proof.
  unfold calculate_shares. intros Hrun.
  destruct (Qle_bool investment 0) eqn:Hinv; [discriminate|].
  apply Qle_bool_gt in Hinv. split; [assumption|].
  destruct (calculate_weights_with_cap equities cap) as [weights|] eqn:Hw;
    [|discriminate].
  cbn [bind] in Hrun.
  destruct (for_each (shares_step (equity_dict equities) investment rate)
              weights ([], 0)) as [[sh tot]|] eqn:Hloop; [|discriminate].
  cbn [bind] in Hrun. injection Hrun as <- <- <-.
  apply shares_loop_inv in Hloop; [|simpl; eapply weights_NoDup; eauto].
  destruct Hloop as (-> & Htot & Hall).
  exists weights. repeat split; auto. rewrite Htot. ring.
Qed.

Lemma get_shares_map by_ticker investment rate items k :
  get (shares_map by_ticker investment rate items) k
  = option_map (fun w => shares_for by_ticker investment rate (k, w)) (get items k).
Proof.
  induction items as [|[k' w'] items IH]; simpl; [reflexivity|].
  destruct (String.eqb_spec k' k) as [E|Hne]; [now subst | assumption].
Qed.


(** * The claims about [calculate_shares] *)



(** C4.  Scenario 2: for the single equity X (market cap 100, price 20) with
    cap 0.5, budget 1000 and fee rate 0.03 the weight of X is 0.5, 24 shares
    are bought, the cost without fees is 480, the fees are 14.4 and the
    cost with fees is 494.4. *)
Theorem scenario2_pipeline :
  exists w incl excl,
    calculate_weights_with_cap scenario2 (1#2) = Ok [("X", w)]
    /\ w == 1#2
    /\ calculate_shares scenario2 1000 (3#100) (1#2) = Ok ([("X", 24%Z)], incl, excl)
    /\ replicate_index_fund scenario2 1000 (3#100) (1#2) = Ok ([("X", 24%Z)], incl, excl)
    /\ excl == 480
    /\ incl - excl == 144#10
    /\ incl == 4944#10.
Proof.
  eexists. eexists. eexists.
  split; [vm_compute; reflexivity|]. split; [reflexivity|].
  split; [vm_compute; reflexivity|]. split; [vm_compute; reflexivity|].
  repeat split.
Qed.





(** * The functions depend on the values of their arguments only *)

Section SameDict.
Context {V : Type} (R : V -> V -> Prop).

Lemma same_dict_keys d1 d2 : same_dict R d1 d2 -> keys d1 = keys d2.
Proof.
  induction 1 as [|[k1 v1] [k2 v2] d1 d2 [Hk _] _ IH]; simpl in *;
    [reflexivity | congruence].
Qed.



End SameDict.


















(** * The other scenarios of the testable properties *)

(** Scenario 1: B is capped at 1/2 and its excess 0.4 takes A to 1/2. *)
Example scenario1_weights :
  exists a b,
    calculate_weights_with_cap [mkEquity "A" 1000 10; mkEquity "B" 9000 5] (1#2)
    = Ok [("A", a); ("B", b)]
    /\ a == 1#2 /\ b == 1#2.
Proof.
  eexists. eexists. split; [vm_compute; reflexivity|]. split; reflexivity.
Qed.

(** Scenario 3: a budget of 0 is rejected. *)
Example scenario3_zero_budget :
  calculate_shares scenario2 0 (3#100) (1#2) = Raise InvestmentNotPositive.
Proof. reflexivity. Qed.

(** Scenario 4: a ticker of price 0 is rejected by name. *)
Example scenario4_zero_price :
  calculate_shares [mkEquity "A" 1000 10; mkEquity "B" 9000 0] 1000 (3#100) (1#2)
  = Raise (InvalidPrice "B" 0).
Proof. vm_compute. reflexivity. Qed.

(** A fee rate of -1 makes the divisor zero: the call ends in
    [ZeroDivisionError] at the first ticker, before any price is looked at
    further down the weight map. *)
Example fee_rate_minus_one :
  calculate_shares [mkEquity "A" 1000 10; mkEquity "B" 9000 0] 1000 (-1) (1#2)
  = Raise ZeroDivisionError.
Proof. vm_compute. reflexivity. Qed.

(** A ticker that occurs twice keeps its last record only: the weights of
    the two records of A below sum to 1/2, not 1. *)
Example repeated_ticker :
  exists a,
    calculate_weights_with_cap [mkEquity "A" 1 10; mkEquity "A" 1 10] 1
    = Ok [("A", a)] /\ a == 1#2.
Proof. eexists. split; [vm_compute; reflexivity | reflexivity]. Qed.


(** * Further properties of [calculate_weights_with_cap] *)

Lemma keys_initial_distinct equities :
  NoDup (map ticker equities) -> keys (initial_of equities) = map ticker equities.
Proof.
  intros Hnd. unfold initial_of, initial_weights.
  rewrite comprehension_NoDup by exact Hnd. simpl.
  unfold keys. rewrite map_map. reflexivity.
Qed.

(** X1.  The weight map has one entry per ticker of the input and no ticker
    twice; when the tickers of the input are distinct its keys are the
    tickers in the order of the input. *)
Theorem weight_map_keys (equities : list Equity) (cap : Q) (weights : dict Q) :
  calculate_weights_with_cap equities cap = Ok weights ->
  NoDup (keys weights)
  /\ (forall tk, In tk (keys weights) <-> In tk (map ticker equities))
  /\ (NoDup (map ticker equities) -> keys weights = map ticker equities).
Proof.
  intros Hrun. split; [eapply weights_NoDup; eauto|].
  rewrite (keys_weights _ _ _ Hrun). split.
  - intros tk. apply In_keys_initial.
  - apply keys_initial_distinct.
Qed.

Lemma weight_map_keys_witness :
  NoDup (keys [("A", 1#8); ("B", 3#8); ("C", 4#8)])
  /\ (forall tk, In tk (keys [("A", 1#8); ("B", 3#8); ("C", 4#8)])
                 <-> In tk (map ticker fund_abc))
  /\ (NoDup (map ticker fund_abc)
      -> keys [("A", 1#8); ("B", 3#8); ("C", 4#8)] = map ticker fund_abc).
Proof.
  apply (weight_map_keys fund_abc 1 [("A", 1#8); ("B", 3#8); ("C", 4#8)]).
  vm_compute. reflexivity.
Defined.

(** X2.  A ticker whose initial weight is above the cap gets exactly the
    cap. *)
Theorem capped_ticker_gets_cap (equities : list Equity) (cap : Q)
  (tk : string) (w0 : Q) :
  ~ total_market_cap equities == 0 ->
  get (initial_of equities) tk = Some w0 ->
  cap < w0 ->
  weight_of equities cap tk = Some cap.
Proof.
  intros Hne Hget Hover.
  rewrite (weight_of_eq equities cap tk w0 Hne Hget).
  assert (Hc : Qle_bool w0 cap = false) by now apply Qle_bool_gt.
  unfold final_weight. rewrite capped_weight_alt, Hc. now destruct (_ && _).
Qed.

Lemma capped_ticker_gets_cap_witness :
  weight_of fund_abc (1#4) "C" = Some (1#4).
Proof.
  apply (capped_ticker_gets_cap fund_abc (1#4) "C" ((4#1) / (8#1))).
  - vm_compute. discriminate.
  - vm_compute. reflexivity.
  - reflexivity.
Defined.

(** X3.  With non-negative market caps of positive total, a ticker whose
    initial weight is at most the cap never loses weight: its weight is
    between its initial weight and the cap. *)
Theorem uncapped_ticker_keeps_weight (equities : list Equity) (cap : Q)
  (tk : string) (w0 : Q) :
  (forall e, In e equities -> 0 <= market_cap e) ->
  0 < total_market_cap equities ->
  get (initial_of equities) tk = Some w0 ->
  w0 <= cap ->
  exists w, weight_of equities cap tk = Some w /\ w0 <= w /\ w <= cap.
Proof.
  intros Hmc Htot Hget Hunder.
  assert (Hne : ~ total_market_cap equities == 0) by lra.
  assert (Hw0 : 0 <= w0).
  { eapply initial_nonneg; eauto. eapply get_Some_In; eauto. }
  rewrite (weight_of_eq equities cap tk w0 Hne Hget).
  eexists. split; [reflexivity|].
  assert (Hc : Qle_bool w0 cap = true) by now apply Qle_bool_iff.
  destruct (Qltb 0 (excess_of equities cap)
            && Qltb 0 (under_total (initial_of equities) cap)) eqn:Hred.
  - apply andb_true_iff in Hred. destruct Hred as [He Hn].
    apply Qltb_lt in He, Hn. split; [|apply final_weight_le_cap].
    unfold final_weight. rewrite Hc. apply Q.min_glb; [|assumption].
    apply redistributed_ge; lra.
  - rewrite capped_weight_alt, Hc. split; [lra | assumption].
Qed.

Lemma uncapped_ticker_keeps_weight_witness :
  exists w, weight_of fund_abc (7#16) "A" = Some w
            /\ (1#1) / (8#1) <= w /\ w <= 7#16.
Proof.
  apply (uncapped_ticker_keeps_weight fund_abc (7#16) "A" ((1#1) / (8#1))).
  - intros e [<-|[<-|[<-|[]]]]; simpl; lra.
  - reflexivity.
  - vm_compute. reflexivity.
  - vm_compute. discriminate.
Defined.

Lemma py_sum_zero {A : Type} (f : A -> Q) l :
  (forall x, In x l -> f x == 0) -> py_sum (map f l) == 0.
Proof.
  induction l as [|x l IH]; intros H; simpl.
  - reflexivity.
  - assert (E1 : f x == 0) by (apply H; now left).
    assert (E2 : py_sum (map f l) == 0) by (apply IH; intros; apply H; now right).
    rewrite py_sum_cons, E1, E2. ring.
Qed.

Lemma map_values_id (f : Q -> Q) (d : dict Q) :
  (forall k w, In (k, w) d -> f w = w) -> map_values f d = d.
Proof.
  induction d as [|[k w] d IH]; intros H; simpl; [reflexivity|].
  rewrite (H k w) by now left.
  f_equal. apply IH. intros; eapply H; right; eauto.
Qed.

(** X4.  When no initial weight is above the cap, capping changes nothing:
    the weights returned are the initial weights, market cap over total
    market cap. *)
Theorem no_ticker_above_cap (equities : list Equity) (cap : Q) :
  ~ total_market_cap equities == 0 ->
  (forall tk w, In (tk, w) (initial_of equities) -> w <= cap) ->
  calculate_weights_with_cap equities cap = Ok (initial_of equities).
Proof.
  intros Hne Hall.
  rewrite calculate_weights_with_cap_eq by now apply Qeq_bool_false_iff.
  assert (Hex : excess_of equities cap == 0).
  { unfold excess_of. rewrite apply_cap_excess by apply initial_weights_NoDup.
    apply py_sum_zero. intros w Hw. apply In_values_inv in Hw.
    destruct Hw as [k Hk]. unfold excess_part.
    rewrite (proj2 (Qltb_ge cap w)) by eauto. reflexivity. }
  assert (Qltb 0 (excess_of equities cap) = false) as ->
      by (apply Qltb_ge; lra).
  simpl. f_equal. apply map_values_id.
  intros k w Hin. unfold capped_weight.
  now rewrite (proj2 (Qltb_ge cap w)) by eauto.
Qed.

Lemma no_ticker_above_cap_witness :
  calculate_weights_with_cap fund_abc (1#2) = Ok (initial_of fund_abc).
Proof.
  apply (no_ticker_above_cap fund_abc (1#2)).
  - vm_compute. discriminate.
  - intros tk w Hin. vm_compute in Hin.
    destruct Hin as [[= <- <-]|[[= <- <-]|[[= <- <-]|[]]]];
      vm_compute; discriminate.
Defined.






Lemma py_sum_le_length l c :
  (forall x, In x l -> x <= c) ->
  py_sum l <= inject_Z (Z.of_nat (List.length l)) * c.
Proof.
  induction l as [|x l IH]; intros H.
  - rewrite py_sum_nil. change (inject_Z (Z.of_nat (List.length (@nil Q)))) with 0.
    lra.
  - rewrite py_sum_cons. cbn [List.length]. rewrite Nat2Z.inj_succ.
    unfold Z.succ. rewrite inject_Z_plus.
    assert (x <= c) by (apply H; now left).
    assert (py_sum l <= inject_Z (Z.of_nat (List.length l)) * c)
      by (apply IH; intros; apply H; now right).
    change (inject_Z 1) with 1. lra.
Qed.

(** X6.  The weights sum to at most the number of tickers times the cap: a
    cap below one over the number of tickers leaves part of the budget
    without a ticker. *)
Theorem weights_sum_at_most_count_times_cap (equities : list Equity) (cap : Q)
  (weights : dict Q) :
  calculate_weights_with_cap equities cap = Ok weights ->
  py_sum (values weights) <= inject_Z (Z.of_nat (List.length weights)) * cap.
Proof.
  intros Hrun. replace (List.length weights) with (List.length (values weights))
    by apply length_map.
  apply py_sum_le_length. intros w Hw. apply In_values_inv in Hw.
  destruct Hw as [k Hk]. eapply weights_le_cap; eauto.
Qed.

Lemma weights_sum_at_most_count_times_cap_witness :
  py_sum (values [("A", 1#4); ("B", 1#4); ("C", 1#4)])
  <= inject_Z (Z.of_nat (List.length [("A", 1#4); ("B", 1#4); ("C", 1#4)])) * (1#4).
Proof.
  apply (weights_sum_at_most_count_times_cap fund_abc (1#4)
           [("A", 1#4); ("B", 1#4); ("C", 1#4)]).
  vm_compute. reflexivity.
Defined.

Lemma get_comprehension_other {E V : Type} (kf : E -> string) (vf : E -> V)
  l : forall d k,
  ~ In k (map kf l) -> get (comprehension kf vf l d) k = get d k.
Proof.
  induction l as [|e l IH]; intros d k Hk; [reflexivity|].
  unfold comprehension in *. simpl. rewrite IH by (simpl in Hk; tauto).
  apply get_setitem_other. simpl in Hk. intros E'. apply Hk. now left.
Qed.

Lemma get_comprehension_last {E V : Type} (kf : E -> string) (vf : E -> V)
  l1 e l2 d :
  ~ In (kf e) (map kf l2) ->
  get (comprehension kf vf (l1 ++ e :: l2) d) (kf e) = Some (vf e).
Proof.
  intros Hk. unfold comprehension. rewrite fold_left_app. simpl.
  fold (comprehension kf vf l1 d).
  fold (comprehension kf vf l2 (setitem (comprehension kf vf l1 d) (kf e) (vf e))).
  rewrite get_comprehension_other by assumption.
  apply get_setitem_same.
Qed.

(** X7.  When a ticker occurs in several records, the last of them is the
    one that counts: its price is the price used for the ticker and its
    market cap over the total (which still adds up every record) is the
    ticker's initial weight. *)
Theorem last_record_of_ticker_wins (before : list Equity) (e : Equity)
  (after : list Equity) :
  ~ In (ticker e) (map ticker after) ->
  get (equity_dict (before ++ e :: after)) (ticker e) = Some e
  /\ get (initial_of (before ++ e :: after)) (ticker e)
     = Some (market_cap e / total_market_cap (before ++ e :: after)).
Proof.
  intros Hlast. split.
  - unfold equity_dict.
    apply (get_comprehension_last ticker (fun x => x)). assumption.
  - unfold initial_of, initial_weights.
    apply (get_comprehension_last ticker
             (fun x => market_cap x / total_market_cap (before ++ e :: after))).
    assumption.
Qed.

Lemma last_record_of_ticker_wins_witness :
  get (equity_dict ([mkEquity "A" 1 10] ++ mkEquity "A" 3 20 :: [mkEquity "B" 4 5]))
      "A" = Some (mkEquity "A" 3 20)
  /\ get (initial_of ([mkEquity "A" 1 10] ++ mkEquity "A" 3 20 :: [mkEquity "B" 4 5]))
         "A"
     = Some (3 / total_market_cap
                   ([mkEquity "A" 1 10] ++ mkEquity "A" 3 20 :: [mkEquity "B" 4 5])).
Proof.
  apply (last_record_of_ticker_wins [mkEquity "A" 1 10] (mkEquity "A" 3 20)
           [mkEquity "B" 4 5]).
  simpl. intros [H|[]]. discriminate.
Defined.


(** * Further properties of [calculate_shares] *)

Lemma keys_shares_map by_ticker investment rate items :
  keys (shares_map by_ticker investment rate items) = keys items.
Proof. unfold keys, shares_map. rewrite map_map. reflexivity. Qed.

Lemma In_shares_map by_ticker investment rate items k s :
  In (k, s) (shares_map by_ticker investment rate items) ->
  exists w, In (k, w) items /\ s = shares_for by_ticker investment rate (k, w).
Proof.
  unfold shares_map. rewrite in_map_iff.
  intros ([k' w] & [= <- <-] & Hin). eauto.
Qed.

(** X8.  The share map has an entry for every ticker of the weight map and
    for no other, in the same order. *)
Theorem share_map_keys (equities : list Equity) (investment rate cap : Q)
  (weights : dict Q) (shares : dict Z) (incl excl : Q) :
  calculate_weights_with_cap equities cap = Ok weights ->
  calculate_shares equities investment rate cap = Ok (shares, incl, excl) ->
  keys shares = keys weights.
Proof.
  intros Hw Hrun. apply calculate_shares_inv in Hrun.
  destruct Hrun as (_ & weights' & Hw' & -> & _).
  rewrite Hw in Hw'. injection Hw' as <-. apply keys_shares_map.
Qed.

Lemma share_map_keys_witness :
  keys [("X", 24%Z)] = keys [("X", 1#2)].
Proof.
  apply (share_map_keys scenario2 1000 (3#100) (1#2)
           [("X", 1#2)] [("X", 24%Z)] (480 + 480 * (3#100)) 480).
  - vm_compute. reflexivity.
  - vm_compute. reflexivity.
Defined.

(** X9.  With non-negative market caps of positive total, a cap and a fee
    rate that are not negative, no share count is negative. *)
Theorem share_counts_nonneg (equities : list Equity) (investment rate cap : Q)
  (shares : dict Z) (incl excl : Q) :
  (forall e, In e equities -> 0 <= market_cap e) ->
  0 < total_market_cap equities ->
  0 <= cap -> 0 <= rate ->
  calculate_shares equities investment rate cap = Ok (shares, incl, excl) ->
  forall tk s, In (tk, s) shares -> (0 <= s)%Z.
Proof.
  intros Hmc Htot Hcap Hr Hrun tk s Hin.
  apply calculate_shares_inv in Hrun.
  destruct Hrun as (Hinv & weights & Hw & -> & _ & _ & Hall).
  apply In_shares_map in Hin. destruct Hin as (w & Hin & ->).
  destruct (Hall tk w Hin) as (e & Hget & Hp).
  unfold shares_for. simpl. rewrite Hget. unfold share_count.
  apply int_nonneg. apply Qdiv_nonneg; [|nra].
  assert (0 <= w) by (apply (weights_nonneg equities cap weights tk w); assumption).
  nra.
Qed.

Lemma share_counts_nonneg_witness : (0 <= 24)%Z.
Proof.
  apply (share_counts_nonneg scenario2 1000 (3#100) (1#2)
           [("X", 24%Z)] (480 + 480 * (3#100)) 480) with (tk := "X").
  - intros e [<-|[]]. simpl. lra.
  - reflexivity.
  - vm_compute. discriminate.
  - vm_compute. discriminate.
  - vm_compute. reflexivity.
  - left. reflexivity.
Defined.




(** X11.  The totals returned agree with the share map returned: the total
    without fees is the sum over the share map of share count times price,
    and the total with fees is that sum times (1 + fee rate). *)
Theorem totals_match_share_map (equities : list Equity)
  (investment rate cap : Q) (shares : dict Z) (incl excl : Q) :
  calculate_shares equities investment rate cap = Ok (shares, incl, excl) ->
  excl == py_sum (map (position_cost (equity_dict equities)) shares)
  /\ incl == excl * (1 + rate).
Proof.
  intros Hrun. apply calculate_shares_inv in Hrun.
  destruct Hrun as (_ & weights & _ & -> & Hexcl & -> & _).
  split; [|ring]. rewrite Hexcl. unfold shares_map. rewrite map_map.
  apply py_sum_map_eq. intros [k w] _.
  unfold position_cost, cost_for, shares_for. simpl.
  destruct (get (equity_dict equities) k); reflexivity.
Qed.

Lemma totals_match_share_map_witness :
  480 == py_sum (map (position_cost (equity_dict scenario2)) [("X", 24%Z)])
  /\ 480 + 480 * (3#100) == 480 * (1 + (3#100)).
Proof.
  apply (totals_match_share_map scenario2 1000 (3#100) (1#2)
           [("X", 24%Z)] (480 + 480 * (3#100)) 480).
  vm_compute. reflexivity.
Defined.

(** What the share loop can raise: the [ValueError] of a price that is not
    positive, or [ZeroDivisionError] when the fee rate is -1. *)
Lemma shares_loop_raise by_ticker investment rate items : forall sh0 tot0 err,
  (forall k, In k (keys items) -> In k (keys by_ticker)) ->
  for_each (shares_step by_ticker investment rate) items (sh0, tot0) = Raise err ->
  (exists k e, In k (keys items) /\ get by_ticker k = Some e /\ price e <= 0
               /\ err = InvalidPrice k (price e))
  \/ (err = ZeroDivisionError /\ 1 + rate == 0).
Proof.
  induction items as [|[k w] items IH]; intros sh0 tot0 err Hkeys Hrun.
  - discriminate.
  - cbn [for_each] in Hrun.
    pose proof (shares_step_cases by_ticker investment rate sh0 tot0 k w) as Hstep.
    destruct (In_keys_get by_ticker k) as [e Hget]; [apply Hkeys; now left|].
    rewrite Hget in Hstep.
    destruct (Qle_bool (price e) 0) eqn:Hp.
    + rewrite Hstep in Hrun. injection Hrun as <-. left.
      exists k, e. apply Qle_bool_iff in Hp. repeat split; auto. now left.
    + apply Qle_bool_gt in Hp.
      destruct (Qeq_bool (price e * (1 + rate)) 0) eqn:Hz;
        rewrite Hstep in Hrun.
      * injection Hrun as <-. right. split; [reflexivity|].
        apply Qeq_bool_eq in Hz. apply Qmult_integral in Hz.
        destruct Hz as [Hz|Hz]; [lra | exact Hz].
      * cbn [bind] in Hrun. apply IH in Hrun.
        -- destruct Hrun as [(k' & e' & Hin & Hrest)|Hrest]; [left|now right].
           exists k', e'. split; [now right | exact Hrest].
        -- intros; apply Hkeys; now right.
Qed.



Lemma weights_raise_inv equities cap err :
  calculate_weights_with_cap equities cap = Raise err ->
  err = TotalMarketCapZero /\ total_market_cap equities == 0.
Proof.
  intros Hrun. destruct (Qeq_dec (total_market_cap equities) 0) as [Hz|Hnz].
  - rewrite calculate_weights_with_cap_total_zero in Hrun by assumption.
    injection Hrun as <-. auto.
  - destruct (calculate_weights_with_cap_ok equities cap Hnz) as [w Hw].
    congruence.
Qed.

Lemma calculate_shares_raise_inv equities investment rate cap err :
  calculate_shares equities investment rate cap = Raise err ->
  (err = InvestmentNotPositive /\ investment <= 0)
  \/ (err = TotalMarketCapZero /\ 0 < investment /\ total_market_cap equities == 0)
  \/ (exists e, In e equities /\ price e <= 0 /\ 0 < investment
                /\ ~ total_market_cap equities == 0
                /\ err = InvalidPrice (ticker e) (price e))
  \/ (err = ZeroDivisionError /\ 1 + rate == 0).
Proof.
  unfold calculate_shares. intros Hrun.
  destruct (Qle_bool investment 0) eqn:Hinv.
  { injection Hrun as <-. left. apply Qle_bool_iff in Hinv. auto. }
  apply Qle_bool_gt in Hinv. right.
  destruct (calculate_weights_with_cap equities cap) as [weights|e0] eqn:Hw.
  - cbn [bind] in Hrun. right.
    destruct (for_each (shares_step (equity_dict equities) investment rate)
                weights ([], 0)) as [[sh tot]|e1] eqn:Hloop; [discriminate|].
    cbn [bind] in Hrun. injection Hrun as <-.
    apply shares_loop_raise in Hloop.
    + destruct Hloop as [(k & e & Hin & Hget & Hp & ->)|Hz]; [left|now right].
      apply get_equity_dict in Hget. destruct Hget as [He <-].
      exists e. repeat split; auto.
      intros Hz. rewrite calculate_weights_with_cap_total_zero in Hw by assumption.
      discriminate.
    + intros k Hk. eapply weights_keys_in_equity_dict; eauto.
  - cbn [bind] in Hrun. injection Hrun as <-. left.
    apply weights_raise_inv in Hw. destruct Hw as [-> Hz]. auto.
Qed.



(** X13.  Which of the two argument checks reports: the budget check comes
    first, the total market cap (zero for an empty list too) is looked at
    only for a positive budget. *)
Theorem calculate_shares_argument_errors (equities : list Equity)
  (investment rate cap : Q) :
  (calculate_shares equities investment rate cap = Raise InvestmentNotPositive
   <-> investment <= 0)
  /\ (calculate_shares equities investment rate cap = Raise TotalMarketCapZero
      <-> 0 < investment /\ total_market_cap equities == 0).
Proof.
  split; split.
  - intros Hrun. apply calculate_shares_raise_inv in Hrun.
    destruct Hrun as [[_ H]|[[H _]|[(e & _ & _ & _ & _ & H)|[H _]]]];
      [assumption | discriminate..].
  - intros Hinv. unfold calculate_shares.
    now rewrite (proj2 (Qle_bool_iff investment 0) Hinv).
  - intros Hrun. apply calculate_shares_raise_inv in Hrun.
    destruct Hrun as [[H _]|[[_ H]|[(e & _ & _ & _ & _ & H)|[H _]]]];
      [discriminate | assumption | discriminate..].
  - intros [Hinv Hz]. unfold calculate_shares.
    assert (Qle_bool investment 0 = false) as -> by now apply Qle_bool_gt.
    now rewrite calculate_weights_with_cap_total_zero.
Qed.






Lemma share_count_mono investment1 investment2 rate w p :
  0 <= investment1 -> investment1 <= investment2 ->
  0 <= rate -> 0 < p -> 0 <= w ->
  (share_count investment1 rate w p <= share_count investment2 rate w p)%Z.
Proof.
  intros H1 H12 Hr Hp Hw. unfold share_count.
  assert (Hd : 0 < p * (1 + rate)) by nra.
  assert (Hinv : 0 <= / (p * (1 + rate))) by (apply Qinv_le_0_compat; lra).
  assert (Hle : investment1 * w / (p * (1 + rate))
                <= investment2 * w / (p * (1 + rate))).
  { unfold Qdiv. apply Qmult_le_compat_r; [nra | assumption]. }
  assert (0 <= investment1 * w / (p * (1 + rate))).
  { apply Qdiv_nonneg; [nra | assumption]. }
  rewrite !int_floor by lra. now apply Qfloor_resp_le.
Qed.

(** X15.  A larger budget never buys fewer shares of any ticker (same fund,
    fee rate and cap; non-negative market caps of positive total, cap and
    fee rate not negative). *)
Theorem larger_budget_no_fewer_shares (equities : list Equity)
  (investment1 investment2 rate cap : Q)
  (shares1 shares2 : dict Z) (incl1 excl1 incl2 excl2 : Q) :
  (forall e, In e equities -> 0 <= market_cap e) ->
  0 < total_market_cap equities ->
  0 <= cap -> 0 <= rate ->
  investment1 <= investment2 ->
  calculate_shares equities investment1 rate cap = Ok (shares1, incl1, excl1) ->
  calculate_shares equities investment2 rate cap = Ok (shares2, incl2, excl2) ->
  forall tk s1 s2,
    get shares1 tk = Some s1 -> get shares2 tk = Some s2 -> (s1 <= s2)%Z.
Proof.
  intros Hmc Htot Hcap Hr Hle Hrun1 Hrun2 tk s1 s2 Hs1 Hs2.
  apply calculate_shares_inv in Hrun1, Hrun2.
  destruct Hrun1 as (Hinv1 & weights & Hw & -> & _ & _ & Hall).
  destruct Hrun2 as (_ & weights' & Hw' & -> & _).
  rewrite Hw in Hw'. injection Hw' as <-.
  rewrite get_shares_map in Hs1, Hs2.
  destruct (get weights tk) as [w|] eqn:Hget; [|discriminate].
  simpl in Hs1, Hs2. injection Hs1 as <-. injection Hs2 as <-.
  apply get_Some_In in Hget.
  destruct (Hall tk w Hget) as (e & He & Hp).
  unfold shares_for. simpl. rewrite He.
  apply share_count_mono; try lra.
  apply (weights_nonneg equities cap weights tk w); assumption.
Qed.

Lemma larger_budget_no_fewer_shares_witness : (24 <= 48)%Z.
Proof.
  apply (larger_budget_no_fewer_shares scenario2 1000 2000 (3#100) (1#2)
           [("X", 24%Z)] [("X", 48%Z)]
           (480 + 480 * (3#100)) 480 (960 + 960 * (3#100)) 960) with (tk := "X").
  - intros e [<-|[]]. simpl. lra.
  - reflexivity.
  - vm_compute. discriminate.
  - vm_compute. discriminate.
  - vm_compute. discriminate.
  - vm_compute. reflexivity.
  - vm_compute. reflexivity.
  - reflexivity.
  - reflexivity.
Defined.


(** * The order of the records *)











(** * The report of [main] *)

Lemma insert_item_Permutation x l : Permutation (insert_item x l) (x :: l).
Proof.
  induction l as [|y l IH]; simpl.
  - apply Permutation_refl.
  - destruct (item_leb x y).
    + apply Permutation_refl.
    + eapply Permutation_trans; [apply perm_skip; exact IH | apply perm_swap].
Qed.

Lemma sorted_Permutation l : Permutation (sorted l) l.
Proof.
  induction l as [|x l IH]; simpl.
  - apply Permutation_refl.
  - eapply Permutation_trans; [apply insert_item_Permutation|].
    now apply perm_skip.
Qed.

Lemma item_leb_distinct x y :
  fst x <> fst y ->
  if item_leb x y then ticker_lt x y else ticker_lt y x.
Proof.
  intros Hne. unfold item_leb, ticker_lt.
  destruct (String_as_OT.compare_spec (fst x) (fst y)) as [E|H|H].
  - contradiction.
  - exact H.
  - exact H.
Qed.

Lemma ticker_lt_trans x y z : ticker_lt x y -> ticker_lt y z -> ticker_lt x z.
Proof.
  unfold ticker_lt. intros H1 H2.
  eapply (@StrictOrder_Transitive _ _ String_as_OT.lt_strorder); eauto.
Qed.

Lemma insert_item_sorted x l :
  StronglySorted ticker_lt l ->
  (forall y, In y l -> fst x <> fst y) ->
  StronglySorted ticker_lt (insert_item x l).
Proof.
  intros Hs. induction Hs as [|y l Hs IH Hall]; intros Hne; simpl.
  - repeat constructor.
  - pose proof (item_leb_distinct x y (Hne y (or_introl eq_refl))) as Hxy.
    destruct (item_leb x y).
    + constructor; [now constructor|].
      constructor; [assumption|].
      rewrite Forall_forall in *. intros z Hz.
      eapply ticker_lt_trans; eauto.
    + constructor.
      * apply IH. intros z Hz. apply Hne. now right.
      * rewrite Forall_forall in *. intros z Hz.
        apply (Permutation_in _ (insert_item_Permutation x l)) in Hz.
        destruct Hz as [<-|Hz]; auto.
Qed.

Lemma sorted_StronglySorted (l : dict Z) :
  NoDup (keys l) -> StronglySorted ticker_lt (sorted l).
Proof.
  induction l as [|x l IH]; simpl; intros Hnd.
  - constructor.
  - inversion Hnd as [|? ? Hnotin Hnd']; subst.
    apply insert_item_sorted; [auto|].
    intros y Hy Heq. apply Hnotin. rewrite Heq.
    apply (Permutation_in _ (sorted_Permutation l)) in Hy.
    now apply (in_map fst).
Qed.

Lemma StronglySorted_filter {A : Type} (R : A -> A -> Prop) (f : A -> bool) l :
  StronglySorted R l -> StronglySorted R (filter f l).
Proof.
  induction 1 as [|x l Hs IH Hall]; simpl.
  - constructor.
  - destruct (f x); [|assumption].
    constructor; [assumption|].
    rewrite Forall_forall in *. intros y Hy. apply filter_In in Hy.
    apply Hall. tauto.
Qed.

Lemma shares_NoDup equities investment rate cap shares incl excl :
  calculate_shares equities investment rate cap = Ok (shares, incl, excl) ->
  NoDup (keys shares).
Proof.
  intros Hrun. apply calculate_shares_inv in Hrun.
  destruct Hrun as (_ & weights & Hw & -> & _).
  rewrite keys_shares_map. eapply weights_NoDup; eauto.
Qed.

(** X17.  The share lines of the report: [main] lists the tickers of the
    allocation in strictly ascending order, and a ticker is listed, with its
    share count, exactly when that count is positive. *)
Theorem report_lists_positive_holdings_in_order (equities : list Equity)
  (investment rate cap : Q) (shares : dict Z) (incl excl : Q) :
  calculate_shares equities investment rate cap = Ok (shares, incl, excl) ->
  StronglySorted ticker_lt (listed_holdings shares)
  /\ forall tk s,
       In (tk, s) (listed_holdings shares)
       <-> get shares tk = Some s /\ (0 < s)%Z.
Proof.
  intros Hrun. pose proof (shares_NoDup _ _ _ _ _ _ _ Hrun) as Hnd.
  unfold listed_holdings. split.
  - apply StronglySorted_filter. now apply sorted_StronglySorted.
  - intros tk s. rewrite filter_In. simpl. rewrite Z.ltb_lt.
    split; intros [Hin Hpos]; (split; [|assumption]).
    + apply In_get; [assumption|].
      now apply (Permutation_in _ (sorted_Permutation shares)).
    + apply (Permutation_in _ (Permutation_sym (sorted_Permutation shares))).
      now apply get_Some_In.
Qed.

Lemma report_lists_positive_holdings_in_order_witness :
  StronglySorted ticker_lt (listed_holdings [("X", 24%Z)])
  /\ forall tk s,
       In (tk, s) (listed_holdings [("X", 24%Z)])
       <-> get [("X", 24%Z)] tk = Some s /\ (0 < s)%Z.
Proof.
  apply (report_lists_positive_holdings_in_order scenario2 1000 (3#100) (1#2)
           [("X", 24%Z)] (480 + 480 * (3#100)) 480).
  vm_compute. reflexivity.
Defined.

(** The display loop on a share map that is not in ticker order and holds a
    ticker without shares. *)
Example listed_holdings_example :
  listed_holdings [("ZENITHBANK", 3%Z); ("ACCESSCORP", 7%Z); ("FCMB", 0%Z); ("GTCO", 1%Z)]
  = [("ACCESSCORP", 7%Z); ("GTCO", 1%Z); ("ZENITHBANK", 3%Z)].
Proof. reflexivity. Qed.








(** X20.  [replicate_index_fund] reports "Fund data is empty" for the empty
    list and for no other input, and it does so before the budget is looked
    at. *)
Theorem fund_data_empty_iff (equities : list Equity) (investment rate cap : Q) :
  replicate_index_fund equities investment rate cap = Raise FundDataEmpty
  <-> equities = [].
Proof.
  split.
  - destruct equities as [|e l]; [reflexivity|].
    unfold replicate_index_fund. intros Hrun.
    apply calculate_shares_raise_inv in Hrun.
    destruct Hrun as [[H _]|[[H _]|[(e' & _ & _ & _ & _ & H)|[H _]]]]; discriminate.
  - intros ->. reflexivity.
Qed.

(** * Order of the weights, effect of the fee rate *)

Lemma capped_weight_mono cap a b : a <= b -> capped_weight cap a <= capped_weight cap b.
Proof.
  intros Hab. rewrite !capped_weight_alt.
  destruct (Qle_bool a cap) eqn:Ha, (Qle_bool b cap) eqn:Hb;
    rewrite ?Qle_bool_iff, ?Qle_bool_gt in *; lra.
Qed.

Lemma final_weight_mono cap excess nct a b :
  0 <= excess -> 0 < nct -> a <= b ->
  final_weight cap excess nct a <= final_weight cap excess nct b.
Proof.
  intros He Hn Hab. unfold final_weight.
  destruct (Qle_bool a cap) eqn:Ha, (Qle_bool b cap) eqn:Hb;
    rewrite ?Qle_bool_iff, ?Qle_bool_gt in *.
  - apply Q.min_le_compat_r.
    assert (Hf : 0 <= excess / nct) by now apply Qdiv_nonneg.
    assert (Ea : excess * (a / nct) == a * (excess / nct)) by (unfold Qdiv; ring).
    assert (Eb : excess * (b / nct) == b * (excess / nct)) by (unfold Qdiv; ring).
    rewrite Ea, Eb. nra.
  - apply Q.le_min_r.
  - lra.
  - lra.
Qed.

(** X21.  Capping keeps the order of the tickers: of two tickers, the one
    with the smaller initial weight never gets the larger weight. *)
Theorem weights_keep_order (equities : list Equity) (cap : Q)
  (tk1 tk2 : string) (w1 w2 : Q) :
  ~ total_market_cap equities == 0 ->
  get (initial_of equities) tk1 = Some w1 ->
  get (initial_of equities) tk2 = Some w2 ->
  w1 <= w2 ->
  exists v1 v2,
    weight_of equities cap tk1 = Some v1
    /\ weight_of equities cap tk2 = Some v2
    /\ v1 <= v2.
Proof.
  intros Hne H1 H2 Hle.
  rewrite (weight_of_eq equities cap tk1 w1 Hne H1).
  rewrite (weight_of_eq equities cap tk2 w2 Hne H2).
  eexists. eexists. split; [reflexivity|]. split; [reflexivity|].
  destruct (Qltb 0 (excess_of equities cap)
            && Qltb 0 (under_total (initial_of equities) cap)) eqn:Hred.
  - apply andb_true_iff in Hred. destruct Hred as [He Hn].
    apply Qltb_lt in He, Hn. apply final_weight_mono; lra.
  - now apply capped_weight_mono.
Qed.

Lemma weights_keep_order_witness :
  exists v1 v2,
    weight_of fund_abc (7#16) "A" = Some v1
    /\ weight_of fund_abc (7#16) "C" = Some v2
    /\ v1 <= v2.
Proof.
  apply (weights_keep_order fund_abc (7#16) "A" "C"
           ((1#1) / (8#1)) ((4#1) / (8#1))).
  - vm_compute. discriminate.
  - vm_compute. reflexivity.
  - vm_compute. reflexivity.
  - vm_compute. discriminate.
Defined.

Lemma share_count_fee_mono investment rate1 rate2 w p :
  0 <= investment -> 0 <= rate1 -> rate1 <= rate2 -> 0 < p -> 0 <= w ->
  (share_count investment rate2 w p <= share_count investment rate1 w p)%Z.
Proof.
  intros Hi Hr1 Hr12 Hp Hw. unfold share_count.
  assert (Hd1 : 0 < p * (1 + rate1)) by nra.
  assert (Hd2 : 0 < p * (1 + rate2)) by nra.
  assert (H2 : 0 <= investment * w / (p * (1 + rate2))).
  { apply Qdiv_nonneg; [nra | assumption]. }
  assert (Hle : investment * w / (p * (1 + rate2))
                <= investment * w / (p * (1 + rate1))).
  { apply Qle_shift_div_l; [assumption|].
    assert (E : investment * w / (p * (1 + rate2)) * (p * (1 + rate1))
                == investment * w * ((p * (1 + rate1)) / (p * (1 + rate2))))
      by (field; lra).
    rewrite E.
    assert (Hq : (p * (1 + rate1)) / (p * (1 + rate2)) <= 1).
    { apply Qle_shift_div_r; [assumption | nra]. }
    assert (Ha : 0 <= investment * w) by nra.
    pose proof (Qmult_le_compat_r _ _ (investment * w) Hq Ha). lra. }
  rewrite !int_floor by lra. now apply Qfloor_resp_le.
Qed.

(** X22.  A higher fee rate never buys more shares of any ticker (same fund,
    budget and cap; non-negative market caps of positive total, cap and fee
    rates not negative). *)
Theorem higher_fee_no_more_shares (equities : list Equity)
  (investment rate1 rate2 cap : Q)
  (shares1 shares2 : dict Z) (incl1 excl1 incl2 excl2 : Q) :
  (forall e, In e equities -> 0 <= market_cap e) ->
  0 < total_market_cap equities ->
  0 <= cap -> 0 <= rate1 -> rate1 <= rate2 ->
  calculate_shares equities investment rate1 cap = Ok (shares1, incl1, excl1) ->
  calculate_shares equities investment rate2 cap = Ok (shares2, incl2, excl2) ->
  forall tk s1 s2,
    get shares1 tk = Some s1 -> get shares2 tk = Some s2 -> (s2 <= s1)%Z.
Proof.
  intros Hmc Htot Hcap Hr Hle Hrun1 Hrun2 tk s1 s2 Hs1 Hs2.
  apply calculate_shares_inv in Hrun1, Hrun2.
  destruct Hrun1 as (Hinv1 & weights & Hw & -> & _ & _ & Hall).
  destruct Hrun2 as (_ & weights' & Hw' & -> & _).
  rewrite Hw in Hw'. injection Hw' as <-.
  rewrite get_shares_map in Hs1, Hs2.
  destruct (get weights tk) as [w|] eqn:Hget; [|discriminate].
  simpl in Hs1, Hs2. injection Hs1 as <-. injection Hs2 as <-.
  apply get_Some_In in Hget.
  destruct (Hall tk w Hget) as (e & He & Hp).
  unfold shares_for. simpl. rewrite He.
  apply share_count_fee_mono; try lra.
  apply (weights_nonneg equities cap weights tk w); assumption.
Qed.

Lemma higher_fee_no_more_shares_witness : (20 <= 24)%Z.
Proof.
  apply (higher_fee_no_more_shares scenario2 1000 (3#100) (1#4) (1#2)
           [("X", 24%Z)] [("X", 20%Z)]
           (480 + 480 * (3#100)) 480 (400 + 400 * (1#4)) 400) with (tk := "X").
  - intros e [<-|[]]. simpl. lra.
  - reflexivity.
  - vm_compute. discriminate.
  - vm_compute. discriminate.
  - vm_compute. discriminate.
  - vm_compute. reflexivity.
  - vm_compute. reflexivity.
  - reflexivity.
  - reflexivity.
Defined.
